(** * WebToEpubComics: a shallow embedding of the comic downloader

    The development follows [WebToEpubComics.py]: the Python primitives the
    program relies on (strings, [re.sub], [os.path], number formatting), the
    BeautifulSoup queries it issues, an exception-and-state monad for the
    network and the file system, the seven functions of the program under
    their own names, and then the properties proved about them. *)

From Stdlib Require Import Strings.String Strings.Ascii NArith DecimalString
  DecimalNat.
From stdpp Require Import base list gmap.

Open Scope N_scope.
Open Scope list_scope.

(** ** Python strings

    A Python [str] is a sequence of Unicode code points; a code point is an
    [N].  ASCII literals are written [lit "..."]. *)

Abbreviation str := (list N).

Definition lit (s : string) : str :=
  map N_of_ascii (list_ascii_of_string s).
Arguments lit s%_string.

(** The double quote, which a literal cannot hold. *)
Definition dquote : str := [34].

(** [re]'s [\s] on [str] patterns: the code points for which
    [str.isspace] holds. *)
Definition is_space (c : N) : bool :=
  ((9 <=? c) && (c <=? 13)) || ((28 <=? c) && (c <=? 32))
  || (c =? 133) || (c =? 160) || (c =? 5760)
  || ((8192 <=? c) && (c <=? 8202))
  || (c =? 8232) || (c =? 8233) || (c =? 8239) || (c =? 8287)
  || (c =? 12288).

(** The character class of the first pattern of [slugify_filename]:
    less-than, greater-than, colon, double quote, slash, backslash,
    vertical bar, question mark and star. *)
Definition reserved_chars : str := [60; 62; 58; 34; 47; 92; 124; 63; 42].

Definition is_reserved (c : N) : bool := bool_decide (c ∈ reserved_chars).

(** ** [re.sub]

    Two shapes of pattern occur in the program: a bare character class, and
    a character class under [+]. *)

Section ReSub.
Variable cls : N -> bool.
Variable repl : str.

(** [re.sub('[...]', repl, s)]: every character of the class is a match
    of length one. *)
Definition re_sub_class (s : str) : str :=
  flat_map (fun c => if cls c then repl else [c]) s.

(** [re.sub('[...]+', repl, s)]: the scan goes left to right; at a
    character of the class a greedy match starts, [repl] is emitted once
    and [re_sub_skip] consumes the rest of the match. *)
Fixpoint re_sub_plus (s : str) : str :=
  match s with
  | [] => []
  | c :: r => if cls c then repl ++ re_sub_skip r else c :: re_sub_plus r
  end
with re_sub_skip (s : str) : str :=
  match s with
  | [] => []
  | c :: r => if cls c then re_sub_skip r else c :: re_sub_plus r
  end.
End ReSub.

(** ** [slugify_filename] (lines 156-163) *)

Definition slugify_filename (title : str) : str :=
  let title := re_sub_class is_reserved [] title in
  let title := re_sub_plus is_space (lit "_") title in
  title.

(** The sanitizer as the specification words it: the reserved characters
    are removed, then the string is cut into its maximal runs of
    whitespace and of non-whitespace, and every whitespace run becomes one
    underscore. *)

Fixpoint runs (p : N -> bool) (t : str) : list str :=
  match t with
  | [] => []
  | c :: r =>
      match runs p r with
      | (d :: g) :: gs =>
          if Bool.eqb (p c) (p d) then (c :: d :: g) :: gs
          else [c] :: (d :: g) :: gs
      | _ => [[c]]
      end
  end.

Definition collapse_run (p : N -> bool) (repl g : str) : str :=
  match g with
  | c :: _ => if p c then repl else g
  | [] => []
  end.

(** Two neighbouring runs lie in different classes. *)
Fixpoint alternating (p : N -> bool) (gs : list str) : Prop :=
  match gs with
  | (c :: _) :: (((d :: _) :: _) as rest) => p c <> p d /\ alternating p rest
  | _ => True
  end.

Definition slugify_spec (title : str) : str :=
  concat (map (collapse_run is_space (lit "_"))
              (runs is_space (filter (fun c => c ∉ reserved_chars) title))).

(** [str.strip()]: leading and trailing whitespace removed. *)
Fixpoint lstrip (s : str) : str :=
  match s with
  | c :: r => if is_space c then lstrip r else s
  | [] => []
  end.

Definition strip (s : str) : str := rev (lstrip (rev (lstrip s))).

(** Truthiness of a value that is [None] or a [str]. *)
Definition truthy (v : option str) : bool :=
  match v with
  | Some (_ :: _) => true
  | _ => false
  end.

(** ** [os.path] (POSIX flavour) and number formatting *)

Definition sep : N := 47.

Definition os_path_join (a b : str) : str :=
  match b with
  | c :: _ =>
      if c =? sep then b
      else match last a with
           | None => b
           | Some d => if d =? sep then a ++ b else a ++ sep :: b
           end
  | [] =>
      match last a with
      | None => []
      | Some d => if d =? sep then a else a ++ [sep]
      end
  end.

(** [os.path.basename]: what follows the last separator. *)
Definition os_path_basename (p : str) : str :=
  fold_left (fun acc c => if c =? sep then [] else acc ++ [c]) p [].

(** The directories [os.makedirs p] has to find or create above [p]: the
    non-empty prefixes of [p] that stop in front of a separator. *)
Fixpoint path_parents (pre p : str) : list str :=
  match p with
  | [] => []
  | c :: r =>
      (if (c =? sep) && negb (bool_decide (pre = [])) then [pre] else [])
        ++ path_parents (pre ++ [c]) r
  end.

(** [f"{idx:03}"]: decimal digits, zero-padded on the left to width 3. *)
Definition digits (n : nat) : str :=
  lit (NilZero.string_of_uint (Nat.to_uint n)).

Definition format_03 (idx : nat) : str :=
  let d := digits idx in
  replicate (3 - length d)%nat 48 ++ d.

(** [enumerate(l, start=start)] *)
Definition enumerate {A} (start : nat) (l : list A) : list (nat * A) :=
  zip (seq start (length l)) l.


(** ** BeautifulSoup

    A parsed document is a tree of tags and strings.  [attrs] is the
    attribute dict of a tag, holding the attribute text as it stands in the
    markup.  A string carries the class the parser gave it: plain text,
    a CDATA section, a comment, or the text of a [script], [style],
    [template], [rt] or [rp] element.  The parser itself is a black box of
    the environment. *)

Inductive string_kind :=
| Text | CData | Comment | Script | Stylesheet | TemplateString
| RubyTextString | RubyParenthesisString
| Doctype | Declaration | ProcessingInstruction.

#[global] Instance string_kind_eq_dec : EqDecision string_kind.
Proof. solve_decision. Defined.

Inductive Node :=
| NavigableString (kind : string_kind) (s : str)
| Tag (name : str) (attrs : gmap str str) (contents : list Node).

Definition attrs_of (n : Node) : gmap str str :=
  match n with
  | Tag _ a _ => a
  | NavigableString _ _ => ∅
  end.

Definition is_tag (name : str) (n : Node) : bool :=
  match n with
  | Tag nm _ _ => bool_decide (nm = name)
  | NavigableString _ _ => false
  end.

(** The proper descendants of a node, in document order. *)
Fixpoint descendants (n : Node) : list Node :=
  match n with
  | NavigableString _ _ => []
  | Tag _ _ cs => flat_map (fun c => c :: descendants c) cs
  end.

(** The elements whose strings get a class of their own. *)
Definition string_container (name : str) : option string_kind :=
  if bool_decide (name = lit "rt") then Some RubyTextString
  else if bool_decide (name = lit "rp") then Some RubyParenthesisString
  else if bool_decide (name = lit "style") then Some Stylesheet
  else if bool_decide (name = lit "script") then Some Script
  else if bool_decide (name = lit "template") then Some TemplateString
  else None.

(** The classes of string that count as the text of a tag. *)
Definition interesting_string_types (name : str) : list string_kind :=
  match string_container name with
  | Some k => [k]
  | None => [Text; CData]
  end.

(** The strings below a node, in document order. *)
Fixpoint all_strings (n : Node) : list (string_kind * str) :=
  match n with
  | NavigableString k s => [(k, s)]
  | Tag _ _ cs => flat_map all_strings cs
  end.

(** [tag.text]: the strings below the tag whose class is one of the
    interesting ones for the tag, joined.  Under an [h1], an [h2] or a
    [span] these are plain text and CDATA: a comment and the text of a
    [script], [style], [template], [rt] or [rp] are left out. *)
Definition get_text (n : Node) : str :=
  match n with
  | NavigableString _ s => s
  | Tag name _ _ =>
      flat_map (fun ks =>
                  if bool_decide (ks.1 ∈ interesting_string_types name)
                  then ks.2 else [])
               (all_strings n)
  end.

(** [tag.string]: defined when the tag has a single child, and that child
    is a string, of whatever class, or has a [.string] of its own. *)
Fixpoint tag_string (n : Node) : option str :=
  match n with
  | NavigableString _ s => Some s
  | Tag _ _ [c] => tag_string c
  | Tag _ _ _ => None
  end.

(** The [class] attribute is multi-valued: the parser splits it at
    whitespace. *)
Definition class_list (n : Node) : list str :=
  match attrs_of n !! lit "class" with
  | Some v =>
      List.filter (fun g => match g with
                            | c :: _ => negb (is_space c)
                            | [] => false
                            end) (runs is_space v)
  | None => []
  end.

(** [soup.find_all(name)] *)
Definition find_all (name : str) (soup : Node) : list Node :=
  List.filter (is_tag name) (descendants soup).

(** [soup.select('name.cls')] and [soup.select_one('name.cls')] *)
Definition select_class (name cls : str) (soup : Node) : list Node :=
  List.filter (fun n => is_tag name n && bool_decide (cls ∈ class_list n))
              (descendants soup).

Definition select_one_class (name cls : str) (soup : Node) : option Node :=
  head (select_class name cls soup).

(** [tag.select_one(name)] *)
Definition select_one (name : str) (n : Node) : option Node :=
  head (find_all name n).

(** [soup.find(name, string=s)] *)
Definition find_string (name s : str) (soup : Node) : option Node :=
  head (List.filter
          (fun n => is_tag name n && bool_decide (tag_string n = Some s))
          (descendants soup)).

(** ** Constants of the program *)

Definition origin : str := lit "https://www.baozimh.com".

(** The sentinel strings and the label of the next-page link, as code
    points. *)
Definition unknown_manga : str := [26410; 30693; 28459; 30059].
Definition unknown_author : str := [26410; 30693; 20316; 32773].
Definition unknown_chapter : str := [26410; 30693; 31456; 31680].
Definition next_page_label : str :=
  [40670; 25802; 36914; 20837; 19979; 19968; 38913].

(** ** The e-book library

    [ebooklib] is a black box; a book is the record of what the program
    puts into it. *)

Abbreviation bytes := (list Byte.byte).

Inductive EpubItem :=
| EpubHtml (title file_name content : str)
| EpubImage (uid file_name media_type : str) (content : bytes)
| EpubNcx
| EpubNav.

Record EpubBook := mkBook {
  identifier : str;
  book_title : str;
  language : str;
  items : list EpubItem;
  toc : list (str * str * str);
  spine : list (str + EpubItem) }.

Definition empty_book : EpubBook := mkBook [] [] [] [] [] [].

Definition set_identifier (b : EpubBook) (i : str) : EpubBook :=
  mkBook i (book_title b) (language b) (items b) (toc b) (spine b).
Definition set_title (b : EpubBook) (t : str) : EpubBook :=
  mkBook (identifier b) t (language b) (items b) (toc b) (spine b).
Definition set_language (b : EpubBook) (l : str) : EpubBook :=
  mkBook (identifier b) (book_title b) l (items b) (toc b) (spine b).
Definition add_item (b : EpubBook) (i : EpubItem) : EpubBook :=
  mkBook (identifier b) (book_title b) (language b) (items b ++ [i])
         (toc b) (spine b).
Definition set_toc (b : EpubBook) (t : list (str * str * str)) : EpubBook :=
  mkBook (identifier b) (book_title b) (language b) (items b) t (spine b).
Definition set_spine (b : EpubBook) (s : list (str + EpubItem)) : EpubBook :=
  mkBook (identifier b) (book_title b) (language b) (items b) (toc b) s.

(** ** The environment, the state and the monad *)

(** The exception classes that matter to the handlers of the program.
    [RequestException] stands for [requests.exceptions.RequestException]
    and its subclasses (connection errors, timeouts, bad statuses);
    [LocationParseError] is the exception of [urllib3] that [requests]
    lets through on a host name it cannot encode, and is not a
    [RequestException]; [ParserRejectedMarkup] is the parser's;
    [OSError] and [ValueError] are those of the file system calls, the
    second for a path with a NUL character; [EpubException] is the
    library's. *)
Inductive exn :=
| RequestException
| LocationParseError
| ParserRejectedMarkup
| OSError
| ValueError
| EpubException.

(** [except requests.exceptions.RequestException] *)
Definition is_RequestException (e : exn) : bool :=
  match e with RequestException => true | _ => false end.

(** [except Exception] catches every exception of the model. *)
Definition is_Exception (e : exn) : bool := true.

(** The answer to a GET followed by [raise_for_status()]: the body, or
    the exception raised, which need not be a [RequestException]. *)
Inductive answer (A : Type) :=
| Done (a : A)
| Fails (e : exn).
Arguments Done {A} a.
Arguments Fails {A} e.

(** The answer of the operating system to [os.makedirs] and to
    [open(path, 'wb')]: the call is carried out, or it raises an
    [OSError], or, for a path with a NUL character, a [ValueError]. *)
Inductive fs_answer := FsDone | FsOSError | FsValueError.

(** The answer of [epub.write_epub]: the archive is written; or the write
    fails with an I/O error, which the library swallows, so that the call
    returns all the same; or the library raises. *)
Inductive epub_answer := EpubWritten | EpubIOError | EpubRaises.

(** What the program cannot decide: what the site answers to a GET, what
    the HTML parser makes of a body ([None] when it rejects the markup),
    what the operating system answers to [os.makedirs] on a path that does
    not exist and to [open(path, 'wb')], what becomes of a call of
    [epub.write_epub], and the bytes a book is serialized to.  The answers
    depend on the URL or the path alone: the site and the permissions are
    taken not to change during a run. *)
Record World := mkWorld {
  http_get : str -> answer bytes;
  html_parser : bytes -> option Node;
  fs_makedirs : str -> fs_answer;
  fs_open_wb : str -> fs_answer;
  epub_writer : str -> EpubBook -> epub_answer;
  epub_bytes : EpubBook -> bytes }.

Inductive level := INFO | WARNING | ERROR.

(** The log records of the program; the text of the exception is left
    out. *)
Inductive message :=
| TitleNotFound (url : str)
| AuthorNotFound (url : str)
| FetchTitleFailed (url : str)
| FetchAuthorFailed (url : str)
| FetchChaptersFailed (url : str)
| ImageFailed (url : str)
| PageFailed (url : str)
| LoadImageFailed (path : str)
| EpubFailed (path : str)
| EpubSaved (path : str)
| DetectedTitle (t : str)
| DetectedAuthor (a : str).

(** What a run does to the outside, in order.  [EvGet None] is a
    [requests.get], [EvGet (Some s)] a [get] of the session [s];
    [EvWriteEpub] is an archive written to the disk. *)
Inductive event :=
| EvGet (session : option nat) (url : str)
| EvSessionOpen (s : nat)
| EvSessionClose (s : nat)
| EvMakedirs (path : str)
| EvWriteFile (path : str) (content : bytes)
| EvWriteEpub (path : str) (book : EpubBook)
| EvLog (lvl : level) (msg : message).

Record State := mkState {
  files : gmap str bytes;
  dirs : gset str;
  sessions : nat;
  trace : list event }.

Definition emit (e : event) (st : State) : State :=
  mkState (files st) (dirs st) (sessions st) (trace st ++ [e]).

(** A computation ends with a value, with a Python exception, or, in the
    model only, because the bound on the [while] loop is used up. *)
Inductive outcome (A : Type) :=
| Ret (a : A)
| Raise (e : exn)
| OutOfFuel.
Arguments Ret {A} a.
Arguments Raise {A} e.
Arguments OutOfFuel {A}.

Definition M (A : Type) : Type := State -> outcome A * State.

Definition ret {A} (a : A) : M A := fun st => (Ret a, st).

Definition bind {A B} (m : M A) (k : A -> M B) : M B :=
  fun st =>
    match m st with
    | (Ret a, st') => k a st'
    | (Raise e, st') => (Raise e, st')
    | (OutOfFuel, st') => (OutOfFuel, st')
    end.

Notation "x <- m ;; k" := (bind m (fun x => k))
  (at level 100, m at next level, right associativity,
   format "'[v' x  <-  m  ;;  '/' k ']'").
Notation "m ;;; k" := (bind m (fun _ => k))
  (at level 100, right associativity).

Definition raise {A} (e : exn) : M A := fun st => (Raise e, st).

Definition out_of_fuel {A} : M A := fun st => (OutOfFuel, st).

(** [try: m  except <catches>: h] *)
Definition try_except {A} (m : M A) (catches : exn -> bool)
    (h : exn -> M A) : M A :=
  fun st =>
    match m st with
    | (Raise e, st') => if catches e then h e st' else (Raise e, st')
    | r => r
    end.

(** [for x in l: s = body x s] *)
Fixpoint for_each {A S} (l : list A) (body : A -> S -> M S) (s : S) : M S :=
  match l with
  | [] => ret s
  | x :: r => s' <- body x s ;; for_each r body s'
  end.

Definition log (lvl : level) (msg : message) : M unit :=
  fun st => (Ret tt, emit (EvLog lvl msg) st).

Section Program.
Variable w : World.

(** [get(url)] followed by [raise_for_status()]; the value is
    [response.content].  Whatever the call raises is raised here. *)
Definition http_fetch (session : option nat) (url : str) : M bytes :=
  fun st =>
    match http_get w url with
    | Done c => (Ret c, emit (EvGet session url) st)
    | Fails e => (Raise e, emit (EvGet session url) st)
    end.

(** [BeautifulSoup(content, 'html.parser')] *)
Definition BeautifulSoup (content : bytes) : M Node :=
  fun st =>
    match html_parser w content with
    | Some soup => (Ret soup, st)
    | None => (Raise ParserRejectedMarkup, st)
    end.

Definition os_path_exists (p : str) : M bool :=
  fun st => (Ret (bool_decide (p ∈ dirs st ∨ p ∈ dom (files st))), st).

(** [os.makedirs(p)]: [FileExistsError], an [OSError], when [p] exists;
    otherwise the operating system decides. *)
Definition os_makedirs (p : str) : M unit :=
  fun st =>
    if bool_decide (p ∈ dirs st ∨ p ∈ dom (files st)) then (Raise OSError, st)
    else
      match fs_makedirs w p with
      | FsDone =>
          (Ret tt,
           emit (EvMakedirs p)
             (mkState (files st)
                      (dirs st ∪ list_to_set (p :: path_parents [] p))
                      (sessions st) (trace st)))
      | FsOSError => (Raise OSError, st)
      | FsValueError => (Raise ValueError, st)
      end.

(** [if not os.path.exists(p): os.makedirs(p)] *)
Definition ensure_dir (p : str) : M unit :=
  present <- os_path_exists p ;;
  if present then ret tt else os_makedirs p.

(** [with open(p, 'wb') as f: f.write(c)] *)
Definition write_file (p : str) (c : bytes) : M unit :=
  fun st =>
    match fs_open_wb w p with
    | FsDone =>
        (Ret tt,
         emit (EvWriteFile p c)
           (mkState (<[p := c]> (files st)) (dirs st) (sessions st)
                    (trace st)))
    | FsOSError => (Raise OSError, st)
    | FsValueError => (Raise ValueError, st)
    end.

(** [with open(p, 'rb') as f: f.read()]; the class of the exception does
    not matter, the one handler around it catches every class. *)
Definition read_file (p : str) : M bytes :=
  fun st =>
    match files st !! p with
    | Some c => (Ret c, st)
    | None => (Raise OSError, st)
    end.

(** [epub.write_epub(p, book)]: the library swallows the I/O error of a
    failed write and returns. *)
Definition write_epub (p : str) (book : EpubBook) : M unit :=
  fun st =>
    match epub_writer w p book with
    | EpubWritten =>
        (Ret tt,
         emit (EvWriteEpub p book)
           (mkState (<[p := epub_bytes w book]> (files st)) (dirs st)
                    (sessions st) (trace st)))
    | EpubIOError => (Ret tt, st)
    | EpubRaises => (Raise EpubException, st)
    end.

(** [with requests.Session() as session: body session]: the session is
    closed on the way out, also when an exception passes through. *)
Definition with_session {A} (body : nat -> M A) : M A :=
  fun st =>
    let s := sessions st in
    let st1 :=
      emit (EvSessionOpen s)
           (mkState (files st) (dirs st) (S s) (trace st)) in
    match body s st1 with
    | (Ret a, st2) => (Ret a, emit (EvSessionClose s) st2)
    | (Raise e, st2) => (Raise e, emit (EvSessionClose s) st2)
    | (OutOfFuel, st2) => (OutOfFuel, st2)
    end.

(** *** [fetch_manga_title] (lines 11-26) *)
Definition fetch_manga_title (index_url : str) : M str :=
  try_except
    (content <- http_fetch None index_url ;;
     soup <- BeautifulSoup content ;;
     match select_one_class (lit "h1") (lit "comics-detail__title") soup with
     | Some title_tag => ret (strip (get_text title_tag))
     | None => log WARNING (TitleNotFound index_url) ;;; ret unknown_manga
     end)
    is_RequestException
    (fun _ => log ERROR (FetchTitleFailed index_url) ;;; ret unknown_manga).

(** *** [fetch_manga_author] (lines 29-44) *)
Definition fetch_manga_author (index_url : str) : M str :=
  try_except
    (content <- http_fetch None index_url ;;
     soup <- BeautifulSoup content ;;
     match select_one_class (lit "h2") (lit "comics-detail__author") soup with
     | Some author_tag => ret (strip (get_text author_tag))
     | None => log WARNING (AuthorNotFound index_url) ;;; ret unknown_author
     end)
    is_RequestException
    (fun _ => log ERROR (FetchAuthorFailed index_url) ;;; ret unknown_author).

(** *** [fetch_chapter_links_and_titles] (lines 47-64) *)

(** One turn of the loop of lines 56-60. *)
Definition chapter_entry (chapter_data : list (str * str)) (chapter : Node)
    : list (str * str) :=
  let href := attrs_of chapter !! lit "href" in
  let title :=
    match select_one (lit "span") chapter with
    | Some span => get_text span
    | None => unknown_chapter
    end in
  match href with
  | Some (c :: h) => chapter_data ++ [(title, origin ++ c :: h)]
  | _ => chapter_data
  end.

Definition extract_chapters (soup : Node) : list (str * str) :=
  let chapters := select_class (lit "a") (lit "comics-chapters__item") soup in
  fold_left chapter_entry chapters [].

Definition fetch_chapter_links_and_titles (index_url : str)
    : M (list (str * str)) :=
  try_except
    (content <- http_fetch None index_url ;;
     soup <- BeautifulSoup content ;;
     ret (extract_chapters soup))
    is_RequestException
    (fun _ => log ERROR (FetchChaptersFailed index_url) ;;; ret []).

(** *** [download_images] (lines 67-108) *)

(** The list comprehension of lines 79-82: an [img] counts when it has
    [src] or [data-src], and [data-src] wins. *)
Definition image_urls (soup : Node) : list str :=
  omap (fun img =>
          match attrs_of img !! lit "data-src" with
          | Some d => Some d
          | None => attrs_of img !! lit "src"
          end)
       (find_all (lit "img") soup).

(** Lines 99-103: the value [current_url] takes at the end of a page. *)
Definition next_url (soup : Node) : option str :=
  match find_string (lit "a") next_page_label soup with
  | Some next_button =>
      match attrs_of next_button !! lit "href" with
      | Some href => Some (origin ++ href)
      | None => None
      end
  | None => None
  end.

Definition image_file (output_dir : str) (idx : nat) : str :=
  os_path_join output_dir (format_03 idx ++ lit ".jpg").

(** Lines 88-96, the body of the loop over the images of a page. *)
Definition download_image (output_dir : str) (session : nat)
    (item : nat * str) (image_paths : list str) : M (list str) :=
  try_except
    (content <- http_fetch (Some session) (snd item) ;;
     let file_path := image_file output_dir (fst item) in
     write_file file_path content ;;;
     ret (image_paths ++ [file_path]))
    is_RequestException
    (fun _ => log ERROR (ImageFailed (snd item)) ;;; ret image_paths).

(** Lines 73-106, the body of the [while] loop; the value is the pair of
    the next [current_url] and of [image_paths].  The only
    [RequestException] that reaches the outer handler is that of the page
    itself, raised before anything is appended, so the handler sees
    [image_paths] as it was when the page started. *)
Definition download_page (output_dir : str) (session : nat)
    (current_url : str) (image_paths : list str)
    : M (option str * list str) :=
  try_except
    (content <- http_fetch (Some session) current_url ;;
     soup <- BeautifulSoup content ;;
     let urls := image_urls soup in
     ensure_dir output_dir ;;;
     image_paths <-
       for_each (enumerate (length image_paths + 1) urls)
                (download_image output_dir session) image_paths ;;
     ret (next_url soup, image_paths))
    is_RequestException
    (fun _ => log ERROR (PageFailed current_url) ;;; ret (None, image_paths)).

(** [while current_url: ...], bounded by [fuel] pages. *)
Fixpoint while_pages (fuel : nat) (output_dir : str) (session : nat)
    (current_url : option str) (image_paths : list str) : M (list str) :=
  if truthy current_url then
    match fuel, current_url with
    | S fuel', Some url =>
        r <- download_page output_dir session url image_paths ;;
        while_pages fuel' output_dir session (fst r) (snd r)
    | _, _ => out_of_fuel
    end
  else ret image_paths.

Definition download_images (fuel : nat) (chapter_url output_dir : str)
    (session : nat) : M (list str) :=
  while_pages fuel output_dir session (Some chapter_url) [].

(** *** [create_volume_epub] (lines 111-153) *)

Definition img_tag (img_path volume_title : str) : str :=
  lit "<img src=" ++ dquote ++ os_path_basename img_path ++ dquote
    ++ lit " alt=" ++ dquote ++ volume_title ++ dquote
    ++ lit " style=" ++ dquote ++ lit "max-width:100%;" ++ dquote
    ++ lit "/>".

(** Lines 119-122. *)
Definition chapter_content (volume_title : str) (image_paths : list str)
    : str :=
  fold_left (fun content img_path =>
               content ++ (img_tag img_path volume_title ++ lit "<br>"))
            image_paths [].

(** Lines 128-138, the body of the loop that embeds the image files. *)
Definition embed_image (image_path : str) (book : EpubBook) : M EpubBook :=
  try_except
    (content <- read_file image_path ;;
     let image :=
       EpubImage (os_path_basename image_path)
                 (os_path_basename image_path) (lit "image/jpeg") content in
     ret (add_item book image))
    is_Exception
    (fun _ => log ERROR (LoadImageFailed image_path) ;;; ret book).

Definition create_volume_epub (manga_title volume_title : str)
    (image_paths : list str) (output_dir : str) : M unit :=
  let book := empty_book in
  let book := set_identifier book (manga_title ++ lit "-" ++ volume_title) in
  let book := set_title book (manga_title ++ lit " " ++ volume_title) in
  let book := set_language book (lit "zh") in
  let chapter :=
    EpubHtml volume_title (volume_title ++ lit ".xhtml")
             (chapter_content volume_title image_paths) in
  let book := add_item book chapter in
  book <- for_each image_paths embed_image book ;;
  let book :=
    set_toc book [(volume_title ++ lit ".xhtml", volume_title, volume_title)] in
  let book := add_item book EpubNcx in
  let book := add_item book EpubNav in
  let book := set_spine book [inl (lit "nav"); inr chapter] in
  ensure_dir output_dir ;;;
  let epub_file :=
    os_path_join output_dir
                 (manga_title ++ lit "_" ++ volume_title ++ lit ".epub") in
  try_except
    (write_epub epub_file book ;;; log INFO (EpubSaved epub_file))
    is_Exception
    (fun _ => log ERROR (EpubFailed epub_file)).

(** *** [download_manga] (lines 166-182) *)

Definition output_directory (manga_title manga_author : str) : str :=
  lit "./" ++ manga_title ++ lit " - " ++ manga_author.

(** Lines 179-182, the body of the loop over the chapters. *)
Definition download_chapter (fuel : nat) (manga_title OUTPUT_DIR : str)
    (session : nat) (chapter : str * str) (_ : unit) : M unit :=
  let title := fst chapter in
  let chapter_url := snd chapter in
  let safe_title := slugify_filename title in
  let temp_image_dir :=
    os_path_join (os_path_join OUTPUT_DIR (lit "temp_images")) safe_title in
  image_paths <- download_images fuel chapter_url temp_image_dir session ;;
  create_volume_epub manga_title title image_paths OUTPUT_DIR.

Definition download_manga (fuel : nat) (index_url : str) : M unit :=
  manga_title <- fetch_manga_title index_url ;;
  manga_author <- fetch_manga_author index_url ;;
  log INFO (DetectedTitle manga_title) ;;;
  log INFO (DetectedAuthor manga_author) ;;;
  let OUTPUT_DIR := output_directory manga_title manga_author in
  chapters <- fetch_chapter_links_and_titles index_url ;;
  with_session (fun session =>
    for_each chapters
             (download_chapter fuel manga_title OUTPUT_DIR session) tt).

End Program.

(** The exception of a file system call that is not carried out. *)
Definition fs_exn (a : fs_answer) : exn :=
  match a with
  | FsValueError => ValueError
  | _ => OSError
  end.

(** ** Reading a trace *)

(** The image files written, in the order of the writes. *)
Definition written (tr : list event) : list (str * bytes) :=
  omap (fun e => match e with
                 | EvWriteFile p c => Some (p, c)
                 | _ => None
                 end) tr.

(** The archives written to the disk. *)
Definition epubs (tr : list event) : list (str * EpubBook) :=
  omap (fun e => match e with
                 | EvWriteEpub p b => Some (p, b)
                 | _ => None
                 end) tr.

(** Every file written, image or archive, with what it holds. *)
Definition file_writes (w : World) (tr : list event) : list (str * bytes) :=
  omap (fun e => match e with
                 | EvWriteFile p c => Some (p, c)
                 | EvWriteEpub p b => Some (p, epub_bytes w b)
                 | _ => None
                 end) tr.

(** The network calls, each with the session it went through. *)
Definition net_calls (tr : list event) : list (option nat * str) :=
  omap (fun e => match e with
                 | EvGet s u => Some (s, u)
                 | _ => None
                 end) tr.

(** The sessions opened. *)
Definition opened (tr : list event) : list nat :=
  omap (fun e => match e with
                 | EvSessionOpen s => Some s
                 | _ => None
                 end) tr.

(** The archives the run reached, written or not: the paths of its
    [EpubSaved] and [EpubFailed] records. *)
Definition archives (tr : list event) : list str :=
  omap (fun e => match e with
                 | EvLog _ (EpubSaved p) => Some p
                 | EvLog _ (EpubFailed p) => Some p
                 | _ => None
                 end) tr.

(** The images logged as failed. *)
Definition failed_images (tr : list event) : list str :=
  omap (fun e => match e with
                 | EvLog ERROR (ImageFailed u) => Some u
                 | _ => None
                 end) tr.

(** The resources of the image paths that can be read. *)
Definition embedded_images (fs : gmap str bytes) (image_paths : list str)
    : list EpubItem :=
  omap (fun p =>
          match fs !! p with
          | Some c =>
              Some (EpubImage (os_path_basename p) (os_path_basename p)
                              (lit "image/jpeg") c)
          | None => None
          end) image_paths.

(** ** What the site decides *)

(** A URL is fetched when the GET gives a body; its fetch is handled when
    it gives a body or raises a [RequestException], the one class the
    handlers of [download_images] catch. *)
Definition fetched (w : World) (u : str) : bool :=
  match http_get w u with
  | Done _ => true
  | Fails _ => false
  end.

Definition handled (w : World) (u : str) : bool :=
  match http_get w u with
  | Done _ => true
  | Fails e => is_RequestException e
  end.

(** The bodies of the URLs of a list that are fetched, in the order of the
    list. *)
Definition fetched_bodies (w : World) (urls : list str) : list bytes :=
  omap (fun u => match http_get w u with
                 | Done c => Some c
                 | Fails _ => None
                 end) urls.

(** The pages the [while] loop of [download_images] goes through from
    [current_url], when it comes to its end: the loop ends at a page
    with no next-page link, and at a page whose fetch raises a
    [RequestException].  [None] when [fuel] pages do not reach the end, and
    when the fetch of a page raises an exception of another class or the
    parser rejects a page: such an exception leaves the loop. *)
Fixpoint page_chain (w : World) (fuel : nat) (current_url : option str)
    : option (list Node) :=
  if truthy current_url then
    match fuel, current_url with
    | S fuel', Some url =>
        match http_get w url with
        | Done content =>
            match html_parser w content with
            | Some soup =>
                match page_chain w fuel' (next_url soup) with
                | Some pages => Some (soup :: pages)
                | None => None
                end
            | None => None
            end
        | Fails e => if is_RequestException e then Some [] else None
        end
    | _, _ => None
    end
  else Some [].

(** What the three functions that read the index page get of it: the
    parsed page; nothing, when the fetch raises a [RequestException],
    which each of them catches; or an exception of another class, of the
    fetch or of the parser, which leaves them. *)
Definition index_soup (w : World) (index_url : str) : answer (option Node) :=
  match http_get w index_url with
  | Done content =>
      match html_parser w content with
      | Some soup => Done (Some soup)
      | None => Fails ParserRejectedMarkup
      end
  | Fails e => if is_RequestException e then Done None else Fails e
  end.

(** The title, the author and the chapters [download_manga] works
    with. *)
Definition title_of (w : World) (index_url : str) : str :=
  match index_soup w index_url with
  | Done (Some soup) =>
      match select_one_class (lit "h1") (lit "comics-detail__title") soup with
      | Some title_tag => strip (get_text title_tag)
      | None => unknown_manga
      end
  | _ => unknown_manga
  end.

Definition author_of (w : World) (index_url : str) : str :=
  match index_soup w index_url with
  | Done (Some soup) =>
      match select_one_class (lit "h2") (lit "comics-detail__author") soup with
      | Some author_tag => strip (get_text author_tag)
      | None => unknown_author
      end
  | _ => unknown_author
  end.

Definition chapters_of (w : World) (index_url : str) : list (str * str) :=
  match index_soup w index_url with
  | Done (Some soup) => extract_chapters soup
  | _ => []
  end.

(** The events that stay within the machine and the log of a failed
    image. *)
Definition is_local (e : event) : bool :=
  match e with
  | EvMakedirs _ | EvWriteFile _ _ => true
  | EvLog _ (LoadImageFailed _) | EvLog _ (ImageFailed _)
  | EvLog _ (PageFailed _) => true
  | _ => false
  end.

Definition epub_file (manga_title volume_title output_dir : str) : str :=
  os_path_join output_dir
               (manga_title ++ lit "_" ++ volume_title ++ lit ".epub").

(** ** Specifications over the trace

    [spec m P]: from every state, [m] adds some events [evs] to the trace,
    opens no session, and its outcome and [evs] satisfy [P]. *)
Definition spec {A} (m : M A) (P : outcome A -> list event -> Prop) : Prop :=
  forall st, exists evs,
    trace (m st).2 = trace st ++ evs
    /\ sessions (m st).2 = sessions st
    /\ P (m st).1 evs.

(** What the loop over the images of a page returns and does, when the
    files can be written and every fetch is handled: [items] are the
    (index, url) pairs. *)
Definition image_results (w : World) (output_dir : str)
    (items : list (nat * str)) : list str :=
  omap (fun it => match http_get w it.2 with
                  | Done _ => Some (image_file output_dir it.1)
                  | Fails _ => None
                  end) items.

Definition image_events (w : World) (output_dir : str) (session : nat)
    (items : list (nat * str)) : list event :=
  flat_map (fun it =>
              EvGet (Some session) it.2
              :: match http_get w it.2 with
                 | Done c => [EvWriteFile (image_file output_dir it.1) c]
                 | Fails _ => [EvLog ERROR (ImageFailed it.2)]
                 end) items.

(** The events of the work on the chapters: network calls go through the
    session [s], and no session is opened or closed. *)
Definition session_event (s : nat) (e : event) : bool :=
  match e with
  | EvGet (Some s') _ => bool_decide (s' = s)
  | EvGet None _ | EvSessionOpen _ | EvSessionClose _ => false
  | _ => true
  end.

(** The log records of the work on the index page. *)
Definition is_index_log (e : event) : bool :=
  match e with
  | EvLog _ (TitleNotFound _) | EvLog _ (AuthorNotFound _)
  | EvLog _ (FetchTitleFailed _) | EvLog _ (FetchAuthorFailed _)
  | EvLog _ (FetchChaptersFailed _)
  | EvLog _ (DetectedTitle _) | EvLog _ (DetectedAuthor _) => true
  | _ => false
  end.

(** [run m Q]: the same for a computation that may open a session; [Q]
    also reads the number the next session gets. *)
Definition run {A} (m : M A)
    (Q : nat -> outcome A -> list event -> Prop) : Prop :=
  forall st, exists evs,
    trace (m st).2 = trace st ++ evs /\ Q (sessions st) (m st).1 evs.

(** ** The chapter extractor, as the specification words it

    A chapter entry is an [a] element whose class attribute, cut at
    whitespace, holds the word [comics-chapters__item]; the entries are
    taken in document order; the link target of an entry is its [href];
    its label is the text of the first [span] inside it, in document
    order. *)










(** A link target resolved against the site origin, for the shapes of
    target a page of the site can hold: a target with a scheme stands for
    itself, a target that starts with two slashes takes the scheme of the
    origin, a target that starts with one slash replaces the path, and any
    other target is a path below the root. *)
Fixpoint scheme_end (seen : bool) (href : str) : bool :=
  match href with
  | [] => false
  | c :: r =>
      if c =? 58 then seen
      else if (c =? 47) || (c =? 63) || (c =? 35) then false
      else scheme_end true r
  end.

Definition has_scheme (href : str) : bool := scheme_end false href.

Definition resolve (href : str) : str :=
  if has_scheme href then href
  else match href with
       | [] => origin
       | c :: r =>
           if c =? sep
           then match r with
                | d :: _ => if d =? sep then lit "https:" ++ href
                            else origin ++ href
                | [] => origin ++ href
                end
           else origin ++ sep :: href
       end.

(** ** A small site

    A comic of two chapters, served under the site origin, on which the
    program is run in the examples. *)
Module Demo.

Definition img (src : str) : Node :=
  Tag (lit "img") {[ lit "src" := src ]} [].

Definition next_link (href : str) : Node :=
  Tag (lit "a") {[ lit "href" := href ]}
      [NavigableString Text next_page_label].

Definition chapter_link (href title : str) : Node :=
  Tag (lit "a")
      (<[ lit "class" := lit "item comics-chapters__item" ]>
         {[ lit "href" := href ]})
      [Tag (lit "span") ∅ [NavigableString Text title]].

Definition document (contents : list Node) : Node :=
  Tag (lit "[document]") ∅ contents.

Definition index_url : str := lit "https://www.baozimh.com/comic/m".

Definition index_page : Node :=
  document
    [Tag (lit "h1") {[ lit "class" := lit "comics-detail__title" ]}
         [NavigableString Text (lit " M ")];
     chapter_link (lit "/c/1") (lit "Ch 1: The/Beginning?");
     chapter_link (lit "/c/2") (lit "two")].

Definition image_a : str := lit "https://img/a.jpg".
Definition image_b : str := lit "https://img/b.jpg".
Definition image_c : str := lit "https://img/c.jpg".
Definition image_d : str := lit "https://img/d.jpg".
Definition image_e : str := lit "https://img/e.jpg".

(** Chapter 1: two pages. *)
Definition page_1 : Node :=
  document [img image_a; img image_b; next_link (lit "/c/1b")].
Definition page_2 : Node := document [img image_c].

(** Two one-page chapters, of three and of five images. *)
Definition page_three : Node :=
  document [img image_a; img image_b; img image_c].
Definition page_five : Node :=
  document [img image_a; img image_c; img image_b; img image_d;
            img image_e].

(** A URL whose host name [requests] cannot encode: the GET raises
    [urllib3]'s [LocationParseError]. *)
Definition bad_host : str := lit "http://a..b/".

(** The page of five images and the first page of chapter 1, each with
    such a URL as the source of an image. *)
Definition page_five_bad_host : Node :=
  document [img image_a; img image_c; img bad_host; img image_d;
            img image_e].
Definition page_1_bad_host : Node :=
  document [img image_a; img bad_host; next_link (lit "/c/1b")].

(** An index page with a NUL character in the title of its first
    chapter. *)
Definition index_url_nul : str := lit "https://www.baozimh.com/comic/n".

Definition index_page_nul : Node :=
  document
    [Tag (lit "h1") {[ lit "class" := lit "comics-detail__title" ]}
         [NavigableString Text (lit "N")];
     chapter_link (lit "/c/1") [97; 0; 98];
     chapter_link (lit "/c/2") (lit "two")].

(** The body [<![x], which the parser rejects. *)
Definition rejected_body : bytes :=
  [Byte.x3c; Byte.x21; Byte.x5b; Byte.x78; Byte.x5d].

Definition parser (content : bytes) : option Node :=
  match content with
  | [Byte.x00] => Some index_page
  | [Byte.x01] => Some page_1
  | [Byte.x02] => Some page_2
  | [Byte.x03] => Some page_three
  | [Byte.x04] => Some page_five
  | [Byte.x05] => Some page_five_bad_host
  | [Byte.x06] => Some page_1_bad_host
  | [Byte.x07] => Some index_page_nul
  | [Byte.x3c; Byte.x21; Byte.x5b; Byte.x78; Byte.x5d] => None
  | _ => Some (document [])
  end.

Definition pages : list (str * bytes) :=
  [(index_url, [Byte.x00]);
   (lit "https://www.baozimh.com/c/1", [Byte.x01]);
   (lit "https://www.baozimh.com/c/1b", [Byte.x02]);
   (lit "https://www.baozimh.com/g/1", [Byte.x03]);
   (lit "https://www.baozimh.com/f/1", [Byte.x04]);
   (lit "https://www.baozimh.com/h/1", [Byte.x05]);
   (index_url_nul, [Byte.x07]);
   (image_a, [Byte.x0a]); (image_b, [Byte.x0b]); (image_c, [Byte.x0c]);
   (image_d, [Byte.x0d]); (image_e, [Byte.x0e])].

(** A URL outside the table is answered with a bad status. *)
Definition serve (table : list (str * bytes)) (url : str) : answer bytes :=
  match (list_to_map table : gmap str bytes) !! url with
  | Some c => Done c
  | None => Fails RequestException
  end.

Definition without (url : str) (table : list (str * bytes))
    : list (str * bytes) :=
  List.filter (fun e => negb (bool_decide (e.1 = url))) table.

(** The GET of [url] raises [e]; the other URLs are served from the
    table. *)
Definition raising (url : str) (e : exn) (table : list (str * bytes))
    (u : str) : answer bytes :=
  if bool_decide (u = url) then Fails e else serve table u.

(** A file system that accepts every path without a NUL character. *)
Definition fs_accepts (p : str) : fs_answer :=
  if bool_decide (0 ∈ p) then FsValueError else FsDone.

Definition fs_read_only (p : str) : fs_answer :=
  if bool_decide (0 ∈ p) then FsValueError else FsOSError.

(** The library writes an archive that lies directly below an output
    directory [./<name>] or [<name>]; deeper, the directory does not exist,
    the write fails with an I/O error and the library swallows it. *)
Definition writer (p : str) (b : EpubBook) : epub_answer :=
  if Nat.leb (length (List.filter (fun c => c =? sep) p)) 2
  then EpubWritten else EpubIOError.

Definition archive_bytes (b : EpubBook) : bytes := [Byte.x50; Byte.x4b].

Definition site (get : str -> answer bytes) (open_wb : str -> fs_answer)
    : World :=
  mkWorld get parser fs_accepts open_wb writer archive_bytes.

(** Everything is served and every write succeeds. *)
Definition site_up : World := site (serve pages) fs_accepts.

(** Image [b] cannot be fetched: the GET raises a [RequestException]. *)
Definition site_b_down : World :=
  site (serve (without image_b pages)) fs_accepts.

(** The GET of [bad_host] raises an exception that is not a
    [RequestException]. *)
Definition site_bad_host : World :=
  site (raising bad_host LocationParseError pages) fs_accepts.

(** The same, and the first page of chapter 1 has an image of that
    URL. *)
Definition site_bad_image : World :=
  site (raising bad_host LocationParseError
          ((lit "https://www.baozimh.com/c/1", [Byte.x06])
           :: without (lit "https://www.baozimh.com/c/1") pages))
       fs_accepts.


(** The body of the first page of chapter 1 is one the parser rejects. *)
Definition site_bad_markup : World :=
  site (serve ((lit "https://www.baozimh.com/c/1", rejected_body)
               :: without (lit "https://www.baozimh.com/c/1") pages))
       fs_accepts.

(** No image file can be opened for writing. *)
Definition site_read_only : World := site (serve pages) fs_read_only.

Definition start : State := mkState ∅ ∅ 0 [].

(** A state in which the first of two image files exists. *)
Definition one_file : State :=
  mkState {[ lit "d/001.jpg" := [Byte.x0a] ]} ∅ 0 [].

Definition book_of_one_file : EpubBook :=
  mkBook (lit "M-one") (lit "M one") (lit "zh")
    [EpubHtml (lit "one") (lit "one.xhtml")
       (img_tag (lit "d/001.jpg") (lit "one") ++ lit "<br>"
        ++ img_tag (lit "d/002.jpg") (lit "one") ++ lit "<br>");
     EpubImage (lit "001.jpg") (lit "001.jpg") (lit "image/jpeg")
               [Byte.x0a];
     EpubNcx; EpubNav]
    [(lit "one.xhtml", lit "one", lit "one")]
    [inl (lit "nav");
     inr (EpubHtml (lit "one") (lit "one.xhtml")
            (img_tag (lit "d/001.jpg") (lit "one") ++ lit "<br>"
             ++ img_tag (lit "d/002.jpg") (lit "one") ++ lit "<br>"))].

End Demo.

(** ** Reading a file name back *)

(** The inverse of [lit] on the code points below 256. *)
Definition unlit (s : str) : string :=
  string_of_list_ascii (map ascii_of_N s).

(** [int(s)] on a string of decimal digits. *)
Definition parse_index (s : str) : option nat :=
  option_map Nat.of_uint (NilZero.uint_of_string (unlit s)).

(** A file written for an image: it lies in [dir], is named by an index,
    and holds the body of some URL that could be fetched. *)
Definition image_of (w : World) (dir : str) (pc : str * bytes) : Prop :=
  exists idx u, pc.1 = image_file dir idx /\ http_get w u = Done pc.2.

(** The file system after the writes of a trace, in order. *)
Definition apply_writes (ws : list (str * bytes)) (fs : gmap str bytes)
    : gmap str bytes :=
  fold_left (fun m pc => <[pc.1 := pc.2]> m) ws fs.

(** [tracks w m]: [m] changes the files by the writes of its trace
    only. *)
Definition tracks {A} (w : World) (m : M A) : Prop :=
  forall st, exists evs,
    trace (m st).2 = trace st ++ evs
    /\ files (m st).2 = apply_writes (file_writes w evs) (files st).

(** The files the loop over the images of a page writes. *)
Definition image_writes (w : World) (dir : str) (items : list (nat * str))
    : list (str * bytes) :=
  omap (fun it => match http_get w it.2 with
                  | Done c => Some (image_file dir it.1, c)
                  | Fails _ => None
                  end) items.

(** What [download_images] returns and writes along a chain of pages,
    failed images included: on every page the numbering starts one above
    the number of files collected so far. *)
Fixpoint chain_paths (w : World) (dir : str) (pages : list Node)
    (paths : list str) : list str :=
  match pages with
  | [] => paths
  | page :: rest =>
      chain_paths w dir rest
        (paths ++ image_results w dir
                    (enumerate (length paths + 1) (image_urls page)))
  end.

Fixpoint chain_writes (w : World) (dir : str) (pages : list Node)
    (paths : list str) : list (str * bytes) :=
  match pages with
  | [] => []
  | page :: rest =>
      let items := enumerate (length paths + 1) (image_urls page) in
      image_writes w dir items
        ++ chain_writes w dir rest (paths ++ image_results w dir items)
  end.

(** The book [create_volume_epub] hands to the library, given the files
    present when it is called. *)
Definition volume_book_of (fs : gmap str bytes)
    (manga_title volume_title : str) (image_paths : list str)
    (book : EpubBook) : Prop :=
  let chapter :=
    EpubHtml volume_title (volume_title ++ lit ".xhtml")
      (flat_map (fun p => img_tag p volume_title ++ lit "<br>") image_paths) in
  identifier book = manga_title ++ lit "-" ++ volume_title
  /\ book_title book = manga_title ++ lit " " ++ volume_title
  /\ language book = lit "zh"
  /\ items book
     = chapter :: embedded_images fs image_paths ++ [EpubNcx; EpubNav]
  /\ toc book = [(volume_title ++ lit ".xhtml", volume_title, volume_title)]
  /\ spine book = [inl (lit "nav"); inr chapter].

(** The error records of the image paths that cannot be read. *)
Definition load_failures (fs : gmap str bytes) (image_paths : list str)
    : list event :=
  map (fun p => EvLog ERROR (LoadImageFailed p))
      (List.filter (fun p => bool_decide (fs !! p = None)) image_paths).

(** The directory of the images of a chapter, as [download_manga] builds
    it. *)
Definition temp_image_dir (OUTPUT_DIR title : str) : str :=
  os_path_join (os_path_join OUTPUT_DIR (lit "temp_images"))
               (slugify_filename title).

(** A chapter that raises nothing the handlers do not catch: its image
    directory can be made and its image files opened for writing, its
    chain of pages ends, and the fetch of each of its images gives a body
    or raises a [RequestException]. *)
Definition chapter_goes_through (w : World) (fuel : nat) (OUTPUT_DIR : str)
    (chapter : str * str) : Prop :=
  (forall idx,
     fs_open_wb w (image_file (temp_image_dir OUTPUT_DIR chapter.1) idx)
     = FsDone)
  /\ fs_makedirs w (temp_image_dir OUTPUT_DIR chapter.1) = FsDone
  /\ exists pages,
       page_chain w fuel (Some chapter.2) = Some pages
       /\ Forall (fun u => handled w u = true) (flat_map image_urls pages).

(** Two more sites: one on which image [a] cannot be fetched, and one
    whose only page links to itself. *)
Definition site_a_down : World :=
  Demo.site (Demo.serve (Demo.without Demo.image_a Demo.pages))
            Demo.fs_accepts.

Definition looping_site : World :=
  mkWorld (fun u => if bool_decide (u = lit "https://www.baozimh.com/l/1")
                    then Done [] else Fails RequestException)
          (fun _ => Some (Demo.document [Demo.img Demo.image_a;
                                         Demo.next_link (lit "/l/1")]))
          Demo.fs_accepts Demo.fs_accepts Demo.writer Demo.archive_bytes.



(** ** The filename sanitizer *)

Section ReSubFacts.
Variable cls : N -> bool.

Lemma re_sub_class_delete (s : str) :
  re_sub_class cls [] s = List.filter (fun c => negb (cls c)) s.
Proof.
  unfold re_sub_class.
  induction s as [|c r IH]; simpl; [done|].
  rewrite IH. by destruct (cls c).
Qed.

Lemma runs_step (c : N) (r : str) :
  runs cls (c :: r) =
    match runs cls r with
    | (d :: g) :: gs =>
        if Bool.eqb (cls c) (cls d) then (c :: d :: g) :: gs
        else [c] :: (d :: g) :: gs
    | _ => [[c]]
    end.
Proof. reflexivity. Qed.

(** A run starts where the string starts. *)
Lemma runs_cons (c : N) (r : str) :
  exists g gs, runs cls (c :: r) = (c :: g) :: gs.
Proof.
  simpl. destruct (runs cls r) as [|[|d g] gs]; eauto.
  destruct (Bool.eqb (cls c) (cls d)); eauto.
Qed.

Lemma runs_concat (t : str) : concat (runs cls t) = t.
Proof.
  induction t as [|c r IH]; simpl; [done|].
  destruct r as [|d r']; [done|].
  destruct (runs_cons d r') as (g & gs & E). rewrite E in *.
  destruct (Bool.eqb (cls c) (cls d)); simpl in *; by rewrite IH.
Qed.

(** Every run is non-empty and lies within one class. *)
Lemma runs_uniform (t : str) :
  Forall (fun g => exists c g', g = c :: g'
                    /\ Forall (fun d => cls d = cls c) g) (runs cls t).
Proof.
  induction t as [|c r IH]; simpl; [constructor|].
  destruct r as [|d r'].
  { simpl. repeat constructor. exists c, []. by repeat constructor. }
  destruct (runs_cons d r') as (g & gs & E). rewrite E in *.
  inversion IH as [|? ? (d0 & g0 & Hd & Hall) Hrest]; subst.
  injection Hd as -> ->.
  destruct (Bool.eqb (cls c) (cls d0)) eqn:Heq.
  - constructor; [|done]. exists c, (d0 :: g0). split; [done|].
    apply Bool.eqb_prop in Heq. constructor; [done|].
    eapply Forall_impl; [exact Hall|]. simpl. intros; congruence.
  - constructor; [|by constructor; eauto].
    exists c, []. by repeat constructor.
Qed.

(** The runs are maximal: two neighbours lie in different classes. *)
Lemma runs_maximal (t : str) : alternating cls (runs cls t).
Proof.
  induction t as [|c r IH]; simpl; [done|].
  destruct r as [|d r']; [done|].
  destruct (runs_cons d r') as (g & gs & E). rewrite E in *.
  destruct (Bool.eqb (cls c) (cls d)) eqn:Heq.
  - simpl in *. destruct gs as [|[|e g'] gs']; try done.
    destruct IH as [Hne IH]. split; [|done].
    apply Bool.eqb_prop in Heq. congruence.
  - simpl. split; [|done]. intros Hc. rewrite Hc in Heq.
    by rewrite Bool.eqb_reflx in Heq.
Qed.

Variable repl : str.

Lemma re_sub_plus_cons (c : N) (r : str) :
  re_sub_plus cls repl (c :: r) =
    if cls c then repl ++ re_sub_skip cls repl r
    else c :: re_sub_plus cls repl r.
Proof. reflexivity. Qed.

Lemma re_sub_skip_cons (c : N) (r : str) :
  re_sub_skip cls repl (c :: r) =
    if cls c then re_sub_skip cls repl r else c :: re_sub_plus cls repl r.
Proof. reflexivity. Qed.

Lemma re_sub_plus_runs (t : str) :
  re_sub_plus cls repl t = concat (map (collapse_run cls repl) (runs cls t))
  /\ re_sub_skip cls repl t =
       match runs cls t with
       | (d :: _) :: gs =>
           if cls d then concat (map (collapse_run cls repl) gs)
           else concat (map (collapse_run cls repl) (runs cls t))
       | _ => []
       end.
Proof.
  induction t as [|c r [IH1 IH2]]; [done|].
  rewrite re_sub_plus_cons, re_sub_skip_cons, IH1, IH2, runs_step.
  destruct r as [|d r'].
  { simpl. destruct (cls c); simpl; by rewrite ?app_nil_r. }
  destruct (runs_cons d r') as (g & gs & E). rewrite E.
  destruct (cls c) eqn:Hc, (cls d) eqn:Hd; simpl; rewrite ?Hc, ?Hd; done.
Qed.

Lemma re_sub_plus_clean (t : str) :
  Forall (fun c => cls c = false) t -> re_sub_plus cls repl t = t.
Proof.
  induction 1 as [|c r Hc _ IH]; [done|].
  by rewrite re_sub_plus_cons, Hc, IH.
Qed.

Lemma re_sub_plus_elem (P : N -> Prop) (t : str) :
  Forall P repl -> Forall P t ->
  Forall P (re_sub_plus cls repl t) /\ Forall P (re_sub_skip cls repl t).
Proof.
  intros Hrepl. induction 1 as [|c r Hc _ [IH1 IH2]]; [done|].
  rewrite re_sub_plus_cons, re_sub_skip_cons.
  destruct (cls c); split; rewrite ?Forall_app; auto.
Qed.

Lemma re_sub_plus_no_match (t : str) :
  Forall (fun c => cls c = false) repl ->
  Forall (fun c => cls c = false) (re_sub_plus cls repl t)
  /\ Forall (fun c => cls c = false) (re_sub_skip cls repl t).
Proof.
  intros Hrepl. induction t as [|c r [IH1 IH2]]; [done|].
  rewrite re_sub_plus_cons, re_sub_skip_cons.
  destruct (cls c) eqn:Hc; split; rewrite ?Forall_app; auto.
Qed.
End ReSubFacts.

Lemma is_reserved_spec (c : N) :
  is_reserved c = false <-> (c ∉ reserved_chars).
Proof.
  unfold is_reserved. rewrite bool_decide_eq_false. done.
Qed.

Lemma reserved_removed (t : str) :
  re_sub_class is_reserved [] t = filter (fun c => c ∉ reserved_chars) t.
Proof.
  rewrite re_sub_class_delete.
  induction t as [|c r IH]; [done|]. simpl.
  rewrite filter_cons. unfold is_reserved at 1.
  destruct (decide (c ∉ reserved_chars)) as [H|H].
  - rewrite bool_decide_eq_false_2 by done. simpl. by rewrite IH.
  - rewrite bool_decide_eq_true_2; [simpl; by rewrite IH|].
    by destruct (decide (c ∈ reserved_chars)).
Qed.

Lemma re_sub_class_clean (repl t : str) :
  Forall (fun c => c ∉ reserved_chars) t -> re_sub_class is_reserved repl t = t.
Proof.
  unfold re_sub_class.
  induction 1 as [|c r Hc _ IH]; [done|]. simpl.
  apply is_reserved_spec in Hc. by rewrite Hc, IH.
Qed.

Lemma slugify_clean (title : str) :
  Forall (fun c => (c ∉ reserved_chars) /\ is_space c = false)
         (slugify_filename title).
Proof.
  unfold slugify_filename. apply Forall_and. split.
  - apply (re_sub_plus_elem is_space (lit "_") (fun c => c ∉ reserved_chars)).
    + repeat constructor. intros H%list_elem_of_In.
      simpl in H. intuition discriminate.
    + rewrite reserved_removed. apply Forall_forall.
      intros c Hc. by apply list_elem_of_filter in Hc as [? _].
  - apply (re_sub_plus_no_match is_space (lit "_")). by repeat constructor.
Qed.

(** C8. [slugify_filename] is a function defined on every string; it
    removes every reserved character and turns every maximal run of
    whitespace of what remains into one underscore, so that neither a
    reserved character nor whitespace is left; and it maps
    [Ch 1: The/Beginning?] to [Ch_1_TheBeginning]. *)
Theorem slugify_filename_spec :
  (forall title, slugify_filename title = slugify_spec title)
  /\ (forall title,
        Forall (fun c => (c ∉ reserved_chars) /\ is_space c = false)
               (slugify_filename title))
  /\ slugify_filename (lit "Ch 1: The/Beginning?") = lit "Ch_1_TheBeginning".
Proof.
  split; [|split; [apply slugify_clean | reflexivity]].
  intros title. unfold slugify_filename, slugify_spec.
  rewrite reserved_removed.
  apply (re_sub_plus_runs is_space (lit "_")).
Qed.

(** C10. [slugify_filename] is idempotent, because its value holds neither
    a reserved character nor whitespace. *)
Theorem slugify_filename_idempotent (t : str) :
  slugify_filename (slugify_filename t) = slugify_filename t.
Proof.
  pose proof (slugify_clean t) as H. apply Forall_and in H as [Hr Hs].
  unfold slugify_filename at 1.
  rewrite (re_sub_class_clean _ _ Hr). by apply re_sub_plus_clean.
Qed.

(** ** The archive builder *)

Lemma chapter_content_flat_map (volume_title : str) (image_paths : list str) :
  chapter_content volume_title image_paths =
    flat_map (fun p => img_tag p volume_title ++ lit "<br>") image_paths.
Proof.
  unfold chapter_content.
  enough (forall acc,
    fold_left (fun content img_path =>
                 content ++ (img_tag img_path volume_title ++ lit "<br>"))
              image_paths acc
    = acc ++ flat_map (fun p => img_tag p volume_title ++ lit "<br>")
                      image_paths) as H by apply (H []).
  induction image_paths as [|p l IH]; intros acc; simpl.
  - by rewrite app_nil_r.
  - by rewrite IH, <- app_assoc.
Qed.

Lemma items_fold_add_item (l : list EpubItem) (b : EpubBook) :
  fold_left add_item l b =
    mkBook (identifier b) (book_title b) (language b) (items b ++ l)
           (toc b) (spine b).
Proof.
  revert b. induction l as [|i l IH]; intros b; simpl.
  - rewrite app_nil_r. by destruct b.
  - rewrite IH. simpl. by rewrite <- app_assoc.
Qed.

(** ** File names *)

Lemma unlit_lit (s : string) : unlit (lit s) = s.
Proof.
  unfold unlit, lit. rewrite map_map.
  rewrite (map_ext _ id) by apply ascii_N_embedding.
  rewrite map_id. apply string_of_list_ascii_of_string.
Qed.

Lemma unlit_app (a b : str) : unlit (a ++ b) = (unlit a ++ unlit b)%string.
Proof.
  unfold unlit. rewrite map_app.
  induction (map ascii_of_N a) as [|c l IH]; simpl; [done|]. by rewrite IH.
Qed.

Lemma lit_digits (d : Decimal.uint) :
  Forall (fun c => 48 <= c <= 57) (lit (NilEmpty.string_of_uint d)).
Proof.
  induction d; cbn [NilEmpty.string_of_uint lit list_ascii_of_string map];
    constructor; try done; cbn; lia.
Qed.

Lemma digits_are_digits (n : nat) :
  Forall (fun c => 48 <= c <= 57) (digits n) /\ digits n <> [].
Proof.
  unfold digits, NilZero.string_of_uint.
  destruct (Nat.to_uint n) eqn:E; try (split; [apply lit_digits|done]).
  split; [|done]. repeat constructor; cbn; lia.
Qed.

Lemma format_03_digits (idx : nat) :
  Forall (fun c => 48 <= c <= 57) (format_03 idx) /\ format_03 idx <> [].
Proof.
  unfold format_03. destruct (digits_are_digits idx) as [Hd Hne].
  split.
  - apply Forall_app. split; [|done].
    apply Forall_forall. intros c [-> _]%elem_of_replicate. lia.
  - destruct (digits idx); [done|]. by destruct (replicate _ _).
Qed.

Lemma format_03_length (idx : nat) : (3 <= length (format_03 idx))%nat.
Proof.
  unfold format_03. rewrite length_app, length_replicate. lia.
Qed.

Lemma unlit_cons (c : N) (l : str) :
  unlit (c :: l) = String (ascii_of_N c) (unlit l).
Proof. reflexivity. Qed.

Lemma parse_zeros (k : nat) (s : string) (d : Decimal.uint) :
  NilEmpty.uint_of_string s = Some d ->
  option_map Nat.of_uint
    (NilEmpty.uint_of_string (unlit (replicate k 48) ++ s)%string)
  = Some (Nat.of_uint d).
Proof.
  intros H. induction k as [|k IH].
  - change (unlit (replicate 0 48) ++ s)%string with s. by rewrite H.
  - cbn [replicate]. rewrite unlit_cons.
    change (String ?c ?x ++ s)%string with (String c (x ++ s)).
    cbn [NilEmpty.uint_of_string].
    destruct (NilEmpty.uint_of_string (unlit (replicate k 48) ++ s))
      as [d'|]; [|done].
    injection IH as IH. change (ascii_of_N 48) with "0"%char.
    cbn [uint_of_char option_map]. f_equal. rewrite <- IH. reflexivity.
Qed.

(** The index can be read back from the three-digit form. *)
Lemma parse_format_03 (idx : nat) : parse_index (format_03 idx) = Some idx.
Proof.
  unfold parse_index, format_03, digits.
  rewrite unlit_app, unlit_lit.
  set (s := NilZero.string_of_uint (Nat.to_uint idx)).
  assert (exists d, NilEmpty.uint_of_string s = Some d
                    /\ Nat.of_uint d = idx /\ s <> EmptyString)
    as (d & Hs & Hd & Hne).
  { subst s. unfold NilZero.string_of_uint.
    pose proof (Unsigned.of_to idx) as Hof.
    destruct (Nat.to_uint idx) eqn:E;
      try (eexists; split; [rewrite <- E at 1; rewrite E; apply NilEmpty.usu|];
           split; [exact Hof|done]).
    exists (Decimal.D0 Decimal.Nil). split; [done|]. split; [|done].
    by rewrite <- Hof. }
  unfold NilZero.uint_of_string.
  destruct (unlit (replicate (3 - length (lit s)) 48) ++ s)%string eqn:E.
  - destruct (unlit _); [|done]. cbn in E. by subst s.
  - rewrite <- E. rewrite (parse_zeros _ _ _ Hs). by rewrite Hd.
Qed.

Lemma format_03_inj (i j : nat) : format_03 i = format_03 j -> i = j.
Proof.
  intros H. pose proof (parse_format_03 i) as Hi.
  rewrite H, parse_format_03 in Hi. by injection Hi.
Qed.

Lemma basename_fold (name acc : str) :
  Forall (fun c => c <> sep) name ->
  fold_left (fun acc c => if c =? sep then [] else acc ++ [c]) name acc
  = acc ++ name.
Proof.
  intros H. revert acc. induction H as [|c l Hc _ IH]; intros acc; simpl.
  - by rewrite app_nil_r.
  - apply N.eqb_neq in Hc. rewrite Hc, IH. by rewrite <- app_assoc.
Qed.

Lemma basename_after_sep (a name : str) :
  Forall (fun c => c <> sep) name ->
  os_path_basename (a ++ sep :: name) = name.
Proof.
  intros H. unfold os_path_basename. rewrite fold_left_app.
  cbn [fold_left]. rewrite N.eqb_refl. by rewrite basename_fold.
Qed.

(** [os.path.basename] undoes [os.path.join] on a file name. *)
Lemma basename_join (d name : str) :
  name <> [] -> Forall (fun c => c <> sep) name ->
  os_path_basename (os_path_join d name) = name.
Proof.
  intros Hne Hname. unfold os_path_join.
  destruct name as [|c name'] eqn:E; [done|]. rewrite <- E in *.
  assert ((c =? sep) = false) as ->.
  { apply N.eqb_neq. rewrite E in Hname. by apply Forall_inv in Hname. }
  destruct (last d) as [e|] eqn:Hlast.
  - destruct (e =? sep) eqn:He.
    + apply N.eqb_eq in He. subst e. apply last_Some in Hlast as [d' ->].
      rewrite <- app_assoc. by apply basename_after_sep.
    + by apply basename_after_sep.
  - unfold os_path_basename. by rewrite basename_fold.
Qed.

Lemma image_name_plain (idx : nat) :
  format_03 idx ++ lit ".jpg" <> []
  /\ Forall (fun c => c <> sep) (format_03 idx ++ lit ".jpg").
Proof.
  destruct (format_03_digits idx) as [Hd Hne]. split.
  - by destruct (format_03 idx).
  - apply Forall_app. split.
    + eapply Forall_impl; [exact Hd|]. unfold sep. intros c ?. lia.
    + by repeat constructor.
Qed.

Lemma image_file_basename (dir : str) (idx : nat) :
  os_path_basename (image_file dir idx) = format_03 idx ++ lit ".jpg".
Proof. destruct (image_name_plain idx). by apply basename_join. Qed.

(** X1. The base name of a file written by [download_images] is the
    zero-padded index followed by [.jpg], whatever the directory: this is
    the name under which [create_volume_epub] references and embeds it.
    The index has at least three digits and can be read back from them. *)
Theorem basename_of_image_file (dir : str) (idx : nat) :
  os_path_basename (image_file dir idx) = format_03 idx ++ lit ".jpg"
  /\ (3 <= length (format_03 idx))%nat
  /\ parse_index (format_03 idx) = Some idx.
Proof.
  split; [apply image_file_basename|].
  split; [apply format_03_length|apply parse_format_03].
Qed.

Lemma image_file_inj (dir : str) (i j : nat) :
  image_file dir i = image_file dir j -> i = j.
Proof.
  intros H. apply (f_equal os_path_basename) in H.
  destruct (image_name_plain i), (image_name_plain j).
  unfold image_file in H. rewrite !basename_join in H by done.
  apply app_inv_tail in H. by apply format_03_inj.
Qed.

(** X2. In one directory two different indices never name the same
    file. *)
Theorem image_file_injective (dir : str) (i j : nat) :
  i <> j -> image_file dir i <> image_file dir j.
Proof. intros Hne H. by apply Hne, (image_file_inj dir). Qed.

Lemma image_file_injective_witness :
  image_file (lit "out") 9 <> image_file (lit "out") 10.
Proof. apply (image_file_injective (lit "out") 9 10). lia. Defined.


Lemma re_sub_plus_length (cls : N -> bool) (c0 : N) (t : str) :
  (length (re_sub_plus cls [c0] t) <= length t)%nat
  /\ (length (re_sub_skip cls [c0] t) <= length t)%nat.
Proof.
  induction t as [|c r [IH1 IH2]]; [done|].
  rewrite re_sub_plus_cons, re_sub_skip_cons.
  destruct (cls c); cbn [length app]; lia.
Qed.

(** X16. The sanitizer leaves a title unchanged exactly when the title has
    no reserved character and no whitespace, and it never makes a title
    longer. *)
Theorem slugify_filename_fixed_points (title : str) :
  (slugify_filename title = title
   <-> Forall (fun c => (c ∉ reserved_chars) /\ is_space c = false) title)
  /\ (length (slugify_filename title) <= length title)%nat.
Proof.
  split; [split|].
  - intros H. rewrite <- H. apply slugify_clean.
  - intros H. apply Forall_and in H as [Hr Hs]. unfold slugify_filename.
    rewrite (re_sub_class_clean _ _ Hr). by apply re_sub_plus_clean.
  - unfold slugify_filename.
    etransitivity; [apply (re_sub_plus_length is_space 95)|].
    rewrite re_sub_class_delete. apply List.filter_length_le.
Qed.

(** ** Title and author *)

Lemma lstrip_split (s : str) :
  exists l, s = l ++ lstrip s /\ Forall (fun c => is_space c = true) l.
Proof.
  induction s as [|c r (l & Hl & Hall)]; [by exists []|].
  cbn [lstrip]. destruct (is_space c) eqn:E.
  - exists (c :: l). split; [cbn; by rewrite <- Hl|by constructor].
  - by exists [].
Qed.

Lemma lstrip_head (s : str) (c : N) :
  head (lstrip s) = Some c -> is_space c = false.
Proof.
  induction s as [|d r IH]; [done|]. cbn [lstrip].
  destruct (is_space d) eqn:E; [done|]. by intros [= <-].
Qed.

Lemma last_rev_head {A} (l : list A) : last (rev l) = head l.
Proof. destruct l; [done|]. cbn [rev]. by rewrite last_snoc. Qed.

Lemma head_rev_last {A} (l : list A) : head (rev l) = last l.
Proof. by rewrite <- (rev_involutive l) at 2; rewrite last_rev_head. Qed.

(** [strip] leaves no whitespace at either end, and removes whitespace
    only. *)
Lemma strip_ends (s : str) :
  (forall c, head (strip s) = Some c -> is_space c = false)
  /\ (forall c, last (strip s) = Some c -> is_space c = false)
  /\ exists l r, s = l ++ strip s ++ r
       /\ Forall (fun c => is_space c = true) l
       /\ Forall (fun c => is_space c = true) r.
Proof.
  unfold strip. split; [|split].
  - intros c. rewrite head_rev_last.
    destruct (lstrip_split (rev (lstrip s))) as (l & Hl & _).
    intros Hlast.
    assert (last (rev (lstrip s)) = Some c) as H.
    { rewrite Hl, last_app, Hlast. done. }
    rewrite last_rev_head in H. by apply lstrip_head in H.
  - intros c. rewrite last_rev_head. apply lstrip_head.
  - destruct (lstrip_split s) as (l & Hl & Hall).
    destruct (lstrip_split (rev (lstrip s))) as (r & Hr & Hallr).
    exists l, (rev r). split; [|split; [done|]].
    + rewrite Hl at 1. f_equal.
      apply (f_equal (@rev N)) in Hr.
      by rewrite rev_involutive, rev_app_distr in Hr.
    + apply Forall_forall. intros c Hc. apply list_elem_of_In in Hc.
      apply in_rev in Hc. apply list_elem_of_In in Hc.
      by eapply Forall_forall in Hallr.
Qed.

Lemma strip_no_edge_space (s : str) :
  default false (is_space <$> head (strip s)) = false
  /\ default false (is_space <$> last (strip s)) = false.
Proof.
  destruct (strip_ends s) as (Hh & Hl & _). split.
  - destruct (head (strip s)) as [c|]; [|done]. cbn. by apply Hh.
  - destruct (last (strip s)) as [c|]; [|done]. cbn. by apply Hl.
Qed.

(** ** Rules for [spec] *)

Section SpecRules.
Context {A B : Type}.

Lemma spec_weaken (m : M A) (P Q : outcome A -> list event -> Prop) :
  spec m P -> (forall o evs, P o evs -> Q o evs) -> spec m Q.
Proof.
  intros Hm HPQ st. destruct (Hm st) as (evs & ? & ? & ?). eauto.
Qed.

Lemma spec_ret (a : A) (P : outcome A -> list event -> Prop) :
  P (Ret a) [] -> spec (ret a) P.
Proof. intros HP st. exists []. by rewrite app_nil_r. Qed.

Lemma spec_bind (m : M A) (k : A -> M B)
    (P : outcome A -> list event -> Prop)
    (Q : outcome B -> list event -> Prop) :
  spec m P ->
  (forall a evs1, P (Ret a) evs1 ->
     spec (k a) (fun o evs2 => Q o (evs1 ++ evs2))) ->
  (forall e evs1, P (Raise e) evs1 -> Q (Raise e) evs1) ->
  (forall evs1, P OutOfFuel evs1 -> Q OutOfFuel evs1) ->
  spec (bind m k) Q.
Proof.
  intros Hm Hk He Hf st. unfold bind.
  destruct (Hm st) as (evs1 & Htr & Hs & HP).
  destruct (m st) as [[a|e|] st1]; cbn [fst snd] in *.
  - destruct (Hk a evs1 HP st1) as (evs2 & Htr2 & Hs2 & HQ).
    exists (evs1 ++ evs2). rewrite Htr2, Htr, Hs2, Hs.
    by rewrite <- app_assoc.
  - exists evs1. eauto.
  - exists evs1. eauto.
Qed.

Lemma spec_try (m : M A) (catches : exn -> bool) (h : exn -> M A)
    (P Q : outcome A -> list event -> Prop) :
  spec m P ->
  (forall a evs, P (Ret a) evs -> Q (Ret a) evs) ->
  (forall e evs1, P (Raise e) evs1 ->
     if catches e then spec (h e) (fun o evs2 => Q o (evs1 ++ evs2))
     else Q (Raise e) evs1) ->
  (forall evs, P OutOfFuel evs -> Q OutOfFuel evs) ->
  spec (try_except m catches h) Q.
Proof.
  intros Hm Hr He Hf st. unfold try_except.
  destruct (Hm st) as (evs1 & Htr & Hs & HP).
  destruct (m st) as [[a|e|] st1]; cbn [fst snd] in *.
  - exists evs1. eauto.
  - specialize (He e evs1 HP). destruct (catches e).
    + destruct (He st1) as (evs2 & Htr2 & Hs2 & HQ).
      exists (evs1 ++ evs2). rewrite Htr2, Htr, Hs2, Hs.
      by rewrite <- app_assoc.
    + exists evs1. eauto.
  - exists evs1. eauto.
Qed.

Lemma spec_conj (m : M A) (P Q : outcome A -> list event -> Prop) :
  spec m P -> spec m Q -> spec m (fun o evs => P o evs /\ Q o evs).
Proof.
  intros HP HQ st. destruct (HP st) as (evs & Htr & Hs & Hp).
  destruct (HQ st) as (evs' & Htr' & _ & Hq).
  rewrite Htr in Htr'. apply app_inv_head in Htr'. subst evs'.
  by exists evs.
Qed.
End SpecRules.

(** Unfolding the primitives of the monad. *)
Ltac mred :=
  unfold ensure_dir, bind, ret, raise, try_except, log, read_file, write_file,
    http_fetch, BeautifulSoup, os_path_exists, os_makedirs, write_epub,
    out_of_fuel;
  cbv beta iota zeta.

Lemma spec_log (lvl : level) (msg : message) :
  spec (log lvl msg) (fun o evs => o = Ret tt /\ evs = [EvLog lvl msg]).
Proof. intros st. by exists [EvLog lvl msg]. Qed.

Lemma spec_http_fetch (w : World) (session : option nat) (url : str) :
  spec (http_fetch w session url)
       (fun o evs =>
          evs = [EvGet session url]
          /\ o = match http_get w url with
                 | Done c => Ret c
                 | Fails e => Raise e
                 end).
Proof.
  intros st. exists [EvGet session url]. unfold http_fetch.
  by destruct (http_get w url).
Qed.

Lemma spec_BeautifulSoup (w : World) (content : bytes) :
  spec (BeautifulSoup w content)
       (fun o evs =>
          evs = []
          /\ o = match html_parser w content with
                 | Some soup => Ret soup
                 | None => Raise ParserRejectedMarkup
                 end).
Proof.
  intros st. exists []. unfold BeautifulSoup. rewrite app_nil_r.
  by destruct (html_parser w content).
Qed.

Lemma fs_exn_not_request (a : fs_answer) :
  is_RequestException (fs_exn a) = false.
Proof. by destruct a. Qed.

Lemma spec_write_file (w : World) (p : str) (c : bytes) :
  spec (write_file w p c)
       (fun o evs =>
          match fs_open_wb w p with
          | FsDone => o = Ret tt /\ evs = [EvWriteFile p c]
          | a => o = Raise (fs_exn a) /\ evs = []
          end).
Proof.
  intros st. unfold write_file. destruct (fs_open_wb w p).
  - by exists [EvWriteFile p c].
  - exists []. by rewrite app_nil_r.
  - exists []. by rewrite app_nil_r.
Qed.

(** [if not os.path.exists(d): os.makedirs(d)] *)
Lemma spec_ensure_dir (w : World) (d : str) :
  spec (ensure_dir w d)
       (fun o evs =>
          (o = Ret tt /\ evs = [])
          \/ match fs_makedirs w d with
             | FsDone => o = Ret tt /\ evs = [EvMakedirs d]
             | a => o = Raise (fs_exn a) /\ evs = []
             end).
Proof.
  intros st. mred.
  destruct (bool_decide (d ∈ dirs st ∨ d ∈ dom (files st))) eqn:E.
  - exists []. rewrite app_nil_r. cbn [fst snd]. eauto 6.
  - rewrite E. destruct (fs_makedirs w d) eqn:Hmk.
    + exists [EvMakedirs d]. cbn [fst snd]. unfold emit. cbn [trace sessions].
      eauto 6.
    + exists []. rewrite app_nil_r. cbn [fst snd]. eauto 7.
    + exists []. rewrite app_nil_r. cbn [fst snd]. eauto 7.
Qed.

Lemma archives_app (l1 l2 : list event) :
  archives (l1 ++ l2) = archives l1 ++ archives l2.
Proof. apply omap_app. Qed.

Lemma written_app (l1 l2 : list event) :
  written (l1 ++ l2) = written l1 ++ written l2.
Proof. apply omap_app. Qed.

Lemma epubs_app (l1 l2 : list event) :
  epubs (l1 ++ l2) = epubs l1 ++ epubs l2.
Proof. apply omap_app. Qed.

Lemma file_writes_app (w : World) (l1 l2 : list event) :
  file_writes w (l1 ++ l2) = file_writes w l1 ++ file_writes w l2.
Proof. apply omap_app. Qed.

Lemma net_calls_app (l1 l2 : list event) :
  net_calls (l1 ++ l2) = net_calls l1 ++ net_calls l2.
Proof. apply omap_app. Qed.

Lemma opened_app (l1 l2 : list event) :
  opened (l1 ++ l2) = opened l1 ++ opened l2.
Proof. apply omap_app. Qed.

Lemma failed_images_app (l1 l2 : list event) :
  failed_images (l1 ++ l2) = failed_images l1 ++ failed_images l2.
Proof. apply omap_app. Qed.

(** Without an archive among the events, the files written are the
    image files. *)
Lemma file_writes_images (w : World) (evs : list event) :
  epubs evs = [] -> file_writes w evs = written evs.
Proof.
  unfold epubs, file_writes, written.
  induction evs as [|e evs IH]; [done|]. cbn [omap list_omap].
  destruct e; try done; cbn [omap list_omap]; intros H;
    rewrite ?IH; try done.
Qed.

(** ** The archive builder, step by step *)

(** The loop of lines 127-138: the readable images are embedded, the others
    leave a log record. *)
Lemma embed_images_run (image_paths : list str) (book : EpubBook)
    (st : State) :
  for_each image_paths embed_image book st =
    (Ret (fold_left add_item (embedded_images (files st) image_paths) book),
     mkState (files st) (dirs st) (sessions st)
       (trace st ++ load_failures (files st) image_paths)).
Proof.
  unfold load_failures.
  revert book st. induction image_paths as [|p l IH]; intros book st.
  - simpl. rewrite app_nil_r. by destruct st.
  - cbn [for_each]. unfold embed_image at 1. mred.
    unfold embedded_images. cbn [omap List.filter list_omap].
    destruct (files st !! p) as [c|] eqn:E; cbv beta iota zeta.
    + rewrite IH. by rewrite bool_decide_eq_false_2.
    + unfold is_Exception. cbv beta iota zeta. rewrite IH.
      cbn [emit files dirs sessions trace].
      rewrite bool_decide_eq_true_2 by done. cbn [map].
      by rewrite <- app_assoc.
Qed.

(** Lines 149-153: the write of the archive and its log record. *)
Lemma write_and_log_run (w : World) (f : str) (book : EpubBook)
    (st : State) :
  exists st' post,
    try_except (write_epub w f book ;;; log INFO (EpubSaved f)) is_Exception
               (fun _ => log ERROR (EpubFailed f)) st = (Ret tt, st')
    /\ sessions st' = sessions st /\ dirs st' = dirs st
    /\ trace st' = trace st ++ post
    /\ ((epub_writer w f book = EpubRaises
         /\ post = [EvLog ERROR (EpubFailed f)] /\ files st' = files st)
        \/ (epub_writer w f book = EpubIOError
            /\ post = [EvLog INFO (EpubSaved f)] /\ files st' = files st)
        \/ (epub_writer w f book = EpubWritten
            /\ post = [EvWriteEpub f book; EvLog INFO (EpubSaved f)]
            /\ files st' = <[f := epub_bytes w book]> (files st))).
Proof.
  mred. destruct (epub_writer w f book); cbv beta iota zeta;
    unfold is_Exception, emit; cbv beta iota zeta;
    cbn [trace sessions files dirs]; rewrite <- ?app_assoc;
    eexists _, _; (split; [reflexivity|]);
    cbn [trace sessions files dirs app]; eauto 10.
Qed.

(** What a call of [create_volume_epub] does.  It stops with the
    exception of [os.makedirs] when the output directory is missing and
    cannot be made.  Otherwise it returns: with the archive written and
    logged as saved; with nothing written and an error logged, when the
    library raises; and with nothing written but the archive logged as
    saved, when the write fails with the I/O error the library
    swallows. *)
Lemma create_volume_epub_exact (w : World) (manga_title volume_title : str)
    (image_paths : list str) (output_dir : str) (st : State) :
  let f := epub_file manga_title volume_title output_dir in
  exists r st' mk post book,
    create_volume_epub w manga_title volume_title image_paths output_dir st
      = (r, st')
    /\ sessions st' = sessions st
    /\ trace st' = trace st ++ load_failures (files st) image_paths
                            ++ mk ++ post
    /\ (mk = [] \/ mk = [EvMakedirs output_dir])
    /\ volume_book_of (files st) manga_title volume_title image_paths book
    /\ ((r = Raise (fs_exn (fs_makedirs w output_dir))
         /\ fs_makedirs w output_dir <> FsDone
         /\ mk = [] /\ post = [] /\ files st' = files st)
        \/ (r = Ret tt /\ epub_writer w f book = EpubRaises
            /\ post = [EvLog ERROR (EpubFailed f)] /\ files st' = files st)
        \/ (r = Ret tt /\ epub_writer w f book = EpubIOError
            /\ post = [EvLog INFO (EpubSaved f)] /\ files st' = files st)
        \/ (r = Ret tt /\ epub_writer w f book = EpubWritten
            /\ post = [EvWriteEpub f book; EvLog INFO (EpubSaved f)]
            /\ files st' = <[f := epub_bytes w book]> (files st))).
Proof.
  intros f. unfold create_volume_epub. cbv zeta.
  unfold bind at 1. rewrite embed_images_run. cbv beta iota.
  set (logs := load_failures (files st) image_paths).
  fold (epub_file manga_title volume_title output_dir). fold f.
  match goal with |- context [write_epub w f ?b] => set (book := b) end.
  assert (volume_book_of (files st) manga_title volume_title image_paths book)
    as Hbook.
  { subst book. unfold volume_book_of, set_spine, set_toc, add_item at 1 2.
    cbn [identifier book_title language items toc spine].
    rewrite items_fold_add_item.
    cbn [identifier book_title language items toc spine add_item empty_book
         set_identifier set_title set_language app].
    rewrite chapter_content_flat_map. by rewrite <- ?app_assoc. }
  clearbody book.
  set (st0 := mkState (files st) (dirs st) (sessions st) (trace st ++ logs)).
  unfold bind at 1, ensure_dir, bind at 1, os_path_exists, ret, os_makedirs.
  cbv beta iota. subst st0. cbn [files dirs sessions trace].
  destruct (bool_decide _) eqn:Hpresent; cbv beta iota.
  - match goal with |- context [try_except _ _ _ ?s] =>
      destruct (write_and_log_run w f book s)
        as (st' & post & -> & Hs & _ & Htr & Hcase)
    end.
    cbn [files dirs sessions trace] in *.
    exists (Ret tt), st', [], post, book. split; [done|].
    rewrite Htr, <- ?app_assoc. cbn [app].
    repeat (split; [by eauto|]). right.
    destruct Hcase as [(?&?&?)|[(?&?&?)|(?&?&?)]]; eauto 10.
  - cbn [files dirs sessions trace]. rewrite Hpresent.
    destruct (fs_makedirs w output_dir) eqn:Hmk; cbv beta iota.
    + match goal with |- context [try_except _ _ _ ?s] =>
        destruct (write_and_log_run w f book s)
          as (st' & post & -> & Hs & _ & Htr & Hcase)
      end.
      unfold emit in *. cbn [files dirs sessions trace] in *.
      exists (Ret tt), st', [EvMakedirs output_dir], post, book.
      split; [done|].
      rewrite Htr, <- ?app_assoc. cbn [app].
      repeat (split; [by eauto|]). right.
      destruct Hcase as [(?&?&?)|[(?&?&?)|(?&?&?)]]; eauto 10.
    + eexists (Raise OSError), _, [], [], book. split; [reflexivity|].
      cbn [trace sessions files app]. rewrite app_nil_r.
      repeat (split; [by eauto|]). left. by repeat split.
    + eexists (Raise ValueError), _, [], [], book. split; [reflexivity|].
      cbn [trace sessions files app]. rewrite app_nil_r.
      repeat (split; [by eauto|]). left. by repeat split.
Qed.

Lemma load_failures_quiet (s : nat) (fs : gmap str bytes)
    (image_paths : list str) :
  let logs := load_failures fs image_paths in
  Forall (fun e => session_event s e = true) logs
  /\ written logs = [] /\ archives logs = [] /\ epubs logs = []
  /\ net_calls logs = [] /\ failed_images logs = []
  /\ forall p b, EvWriteEpub p b ∉ logs.
Proof.
  cbv zeta. unfold load_failures.
  induction (List.filter _ image_paths) as [|p l (IH1 & IH2 & IH3 & IH4 & IH5 & IH6 & IH7)].
  - repeat split; try done. intros p b H. by apply elem_of_nil in H.
  - cbn [map]. repeat split; try done.
    + by constructor.
    + intros q b [H|H]%elem_of_cons; [done|]. by eapply IH7.
Qed.

(** C9. Whenever [create_volume_epub] writes an archive, the archive holds
    one content document, and the body of that document is, for every
    input path in input order, one [img] element on the base name of the
    path followed by a line break; the embedded resources are those of the
    paths that could be read, so a path that could not be read is referenced
    in the document and absent from the archive. *)
Theorem content_document_references_every_path (w : World)
    (manga_title volume_title : str) (image_paths : list str)
    (output_dir : str) (st : State) (path : str) (book : EpubBook) :
  EvWriteEpub path book ∈
    trace (create_volume_epub w manga_title volume_title image_paths
                              output_dir st).2 ->
  EvWriteEpub path book ∉ trace st ->
  items book =
    EpubHtml volume_title (volume_title ++ lit ".xhtml")
      (flat_map
         (fun p => lit "<img src=" ++ dquote ++ os_path_basename p ++ dquote
                   ++ lit " alt=" ++ dquote ++ volume_title ++ dquote
                   ++ lit " style=" ++ dquote ++ lit "max-width:100%;"
                   ++ dquote ++ lit "/>" ++ lit "<br>")
         image_paths)
    :: embedded_images (files st) image_paths ++ [EpubNcx; EpubNav].
Proof.
  intros Hin Hold.
  destruct (create_volume_epub_exact w manga_title volume_title image_paths
              output_dir st)
    as (r & st' & mk & post & b & Hrun & _ & Htr & Hmk & Hbook & Hcase).
  rewrite Hrun in Hin. cbn [snd] in Hin. rewrite Htr in Hin.
  apply elem_of_app in Hin as [Hin|Hin]; [done|].
  apply elem_of_app in Hin as [Hin|Hin].
  { by apply (load_failures_quiet 0%nat) in Hin. }
  apply elem_of_app in Hin as [Hin|Hin].
  { destruct Hmk as [-> | ->]; [by apply elem_of_nil in Hin|].
    apply list_elem_of_singleton in Hin. discriminate Hin. }
  destruct Hcase as [(_ & _ & _ & -> & _)|[(_ & _ & -> & _)
                    |[(_ & _ & -> & _)|(_ & _ & -> & _)]]].
  - by apply elem_of_nil in Hin.
  - apply list_elem_of_singleton in Hin. discriminate Hin.
  - apply list_elem_of_singleton in Hin. discriminate Hin.
  - apply elem_of_cons in Hin as [Hin|Hin].
    + injection Hin as -> ->. destruct Hbook as (_ & _ & _ & -> & _).
      f_equal. f_equal.
      apply flat_map_ext. intros p. unfold img_tag.
      by rewrite <- !app_assoc.
    + apply list_elem_of_singleton in Hin. discriminate Hin.
Qed.


(** What the orchestrator needs of [create_volume_epub]. *)
Lemma spec_create_volume_epub (w : World) (s : nat)
    (manga_title volume_title : str) (image_paths : list str)
    (output_dir : str) :
  let f := epub_file manga_title volume_title output_dir in
  spec (create_volume_epub w manga_title volume_title image_paths output_dir)
       (fun o evs =>
          Forall (fun e => session_event s e = true) evs
          /\ written evs = [] /\ failed_images evs = []
          /\ ((o = Raise (fs_exn (fs_makedirs w output_dir))
               /\ fs_makedirs w output_dir <> FsDone
               /\ archives evs = [] /\ epubs evs = [])
              \/ (o = Ret tt /\ archives evs = [f]
                  /\ Forall (fun pb => pb.1 = f) (epubs evs)))).
Proof.
  intros f st.
  destruct (create_volume_epub_exact w manga_title volume_title image_paths
              output_dir st)
    as (r & st' & mk & post & book & Hrun & Hs & Htr & Hmk & _ & Hcase).
  rewrite Hrun. cbn [fst snd]. eexists. split; [exact Htr|]. split; [done|].
  destruct (load_failures_quiet s (files st) image_paths)
    as (Hl1 & Hl2 & Hl3 & Hl4 & _ & Hl5 & _).
  rewrite !Forall_app, !written_app, !archives_app, !epubs_app,
    !failed_images_app, Hl2, Hl3, Hl4, Hl5.
  assert (Forall (fun e => session_event s e = true) mk /\ written mk = []
          /\ archives mk = [] /\ epubs mk = [] /\ failed_images mk = [])
    as (Hm1 & -> & -> & -> & ->).
  { destruct Hmk as [->| ->]; repeat split; by repeat constructor. }
  fold f in Hcase.
  destruct Hcase as [(-> & Hno & _ & -> & _)|[(-> & _ & -> & _)
                    |[(-> & _ & -> & _)|(-> & _ & -> & _)]]];
    cbn [written archives epubs failed_images omap list_omap app].
  - repeat split; try done. by left.
  - repeat split; try done; [by repeat constructor|]. right. by repeat split.
  - repeat split; try done; [by repeat constructor|]. right. by repeat split.
  - repeat split; try done; [by repeat constructor|]. right.
    repeat split; try done. by repeat constructor.
Qed.

(** ** The image downloader *)

(** One image: the four ways the body of the loop of lines 87-96 can
    go. *)
Lemma spec_download_image (w : World) (dir : str) (sess : nat)
    (it : nat * str) (paths : list str) :
  spec (download_image w dir sess it paths)
       (fun o evs =>
          match http_get w it.2 with
          | Fails e =>
              if is_RequestException e
              then o = Ret paths
                   /\ evs = [EvGet (Some sess) it.2;
                             EvLog ERROR (ImageFailed it.2)]
              else o = Raise e /\ evs = [EvGet (Some sess) it.2]
          | Done c =>
              match fs_open_wb w (image_file dir it.1) with
              | FsDone =>
                  o = Ret (paths ++ [image_file dir it.1])
                  /\ evs = [EvGet (Some sess) it.2;
                            EvWriteFile (image_file dir it.1) c]
              | a => o = Raise (fs_exn a) /\ evs = [EvGet (Some sess) it.2]
              end
          end).
Proof.
  intros st. unfold download_image. mred.
  destruct (http_get w it.2) as [c|e]; cbv beta iota zeta.
  - destruct (fs_open_wb w (image_file dir it.1)); cbv beta iota zeta;
      unfold is_RequestException, emit; cbv beta iota zeta;
      cbn [fst snd trace sessions files dirs fs_exn];
      rewrite <- ?app_assoc; eexists; (split; [reflexivity|done]).
  - destruct (is_RequestException e); cbv beta iota zeta;
      unfold emit; cbn [fst snd trace sessions files dirs];
      rewrite <- ?app_assoc; eexists; (split; [reflexivity|done]).
Qed.

Lemma session_get (sess : nat) (u : str) :
  session_event sess (EvGet (Some sess) u) = true.
Proof. cbn. by rewrite bool_decide_eq_true_2. Qed.

(** The same, as what the loop keeps true and, when the file can be
    written and the fetch is handled, as what it does. *)
Lemma inv_download_image (w : World) (dir : str) (sess : nat)
    (it : nat * str) (paths : list str) :
  spec (download_image w dir sess it paths)
       (fun o evs =>
          Forall (fun e => session_event sess e = true) evs
          /\ archives evs = [] /\ epubs evs = []
          /\ Forall (image_of w dir) (written evs)
          /\ match o with
             | Ret paths' => paths' = paths ++ map fst (written evs)
             | Raise e => is_RequestException e = false
             | OutOfFuel => False
             end
          /\ (fs_open_wb w (image_file dir it.1) = FsDone ->
              handled w it.2 = true ->
              o = Ret (paths ++ image_results w dir [it])
              /\ evs = image_events w dir sess [it])).
Proof.
  eapply spec_weaken; [apply spec_download_image|].
  intros o evs H. unfold handled, image_results, image_events.
  cbn [omap list_omap flat_map app].
  destruct (http_get w it.2) as [c|e] eqn:Hget.
  - destruct (fs_open_wb w (image_file dir it.1)) eqn:Hw;
      destruct H as [-> ->];
      cbn [written archives epubs omap list_omap map fst fs_exn];
      rewrite ?app_nil_r.
    + repeat split; try done.
      * repeat constructor. apply session_get.
      * repeat constructor. by exists it.1, it.2.
    + repeat split; try done. repeat constructor. apply session_get.
    + repeat split; try done. repeat constructor. apply session_get.
  - destruct (is_RequestException e) eqn:He; destruct H as [-> ->];
      cbn [written archives epubs omap list_omap map fst];
      rewrite ?app_nil_r.
    + repeat split; try done. repeat constructor. apply session_get.
    + repeat split; try done. repeat constructor. apply session_get.
Qed.

Lemma image_results_app (w : World) (dir : str) (l1 l2 : list (nat * str)) :
  image_results w dir (l1 ++ l2)
  = image_results w dir l1 ++ image_results w dir l2.
Proof. apply omap_app. Qed.

Lemma image_events_app (w : World) (dir : str) (sess : nat)
    (l1 l2 : list (nat * str)) :
  image_events w dir sess (l1 ++ l2)
  = image_events w dir sess l1 ++ image_events w dir sess l2.
Proof. apply flat_map_app. Qed.

(** The loop over the images of a page. *)
Lemma spec_image_loop (w : World) (dir : str) (sess : nat)
    (items : list (nat * str)) (paths : list str) :
  spec (for_each items (download_image w dir sess) paths)
       (fun o evs =>
          Forall (fun e => session_event sess e = true) evs
          /\ archives evs = [] /\ epubs evs = []
          /\ Forall (image_of w dir) (written evs)
          /\ match o with
             | Ret paths' => paths' = paths ++ map fst (written evs)
             | Raise e => is_RequestException e = false
             | OutOfFuel => False
             end
          /\ ((forall idx, fs_open_wb w (image_file dir idx) = FsDone) ->
              Forall (fun u => handled w u = true) (map snd items) ->
              o = Ret (paths ++ image_results w dir items)
              /\ evs = image_events w dir sess items)).
Proof.
  revert paths. induction items as [|it items IH]; intros paths.
  - apply spec_ret. unfold image_results, image_events.
    cbn [omap list_omap flat_map map written]. rewrite !app_nil_r.
    by repeat split.
  - cbn [for_each]. eapply spec_bind; [apply inv_download_image|..].
    + intros paths' evs1 (Hs1 & Ha1 & He1 & Hi1 & -> & Hx1).
      eapply spec_weaken; [apply IH|].
      intros o evs2 (Hs2 & Ha2 & He2 & Hi2 & Hr2 & Hx2).
      rewrite Forall_app, archives_app, epubs_app, written_app, Forall_app,
        Ha1, Ha2, He1, He2.
      do 4 (split; [done|]). split.
      * destruct o; [|done..]. subst. by rewrite map_app, app_assoc.
      * intros Hwr [Hh Hrest]%Forall_cons.
        destruct (Hx1 (Hwr _) Hh) as [Hp ->].
        assert (paths ++ map fst (written (image_events w dir sess [it]))
                = paths ++ image_results w dir [it]) as Hp'
          by (by injection Hp).
        destruct (Hx2 Hwr Hrest) as [-> ->].
        change (it :: items) with ([it] ++ items).
        by rewrite image_results_app, image_events_app, app_assoc, <- Hp'.
    + intros e evs1 (Hs1 & Ha1 & He1 & Hi1 & Hr1 & Hx1).
      do 5 (split; [done|]).
      intros Hwr [Hh Hrest]%Forall_cons.
      by destruct (Hx1 (Hwr _) Hh) as [[=] _].
    + by intros evs1 (_ & _ & _ & _ & [] & _).
Qed.

Lemma snd_enumerate {A} (start : nat) (l : list A) :
  map snd (enumerate start l) = l.
Proof.
  unfold enumerate. apply snd_zip. by rewrite length_seq.
Qed.

(** The body of the [try] of lines 73-103. *)
Lemma spec_page_body (w : World) (dir : str) (sess : nat) (url : str)
    (paths : list str) :
  spec (content <- http_fetch w (Some sess) url ;;
        soup <- BeautifulSoup w content ;;
        let urls := image_urls soup in
        ensure_dir w dir ;;;
        image_paths <-
          for_each (enumerate (length paths + 1) urls)
                   (download_image w dir sess) paths ;;
        ret (next_url soup, image_paths))
       (fun o evs =>
          Forall (fun e => session_event sess e = true) evs
          /\ archives evs = [] /\ epubs evs = []
          /\ Forall (image_of w dir) (written evs)
          /\ match o with
             | Ret r => r.2 = paths ++ map fst (written evs)
             | Raise e =>
                 is_RequestException e = true ->
                 evs = [EvGet (Some sess) url] /\ http_get w url = Fails e
             | OutOfFuel => False
             end
          /\ match http_get w url with
             | Fails e => o = Raise e /\ evs = [EvGet (Some sess) url]
             | Done content =>
                 match html_parser w content with
                 | None =>
                     o = Raise ParserRejectedMarkup
                     /\ evs = [EvGet (Some sess) url]
                 | Some soup =>
                     (forall idx, fs_open_wb w (image_file dir idx) = FsDone) ->
                     fs_makedirs w dir = FsDone ->
                     Forall (fun u => handled w u = true) (image_urls soup) ->
                     let items :=
                       enumerate (length paths + 1) (image_urls soup) in
                     o = Ret (next_url soup,
                              paths ++ image_results w dir items)
                     /\ exists mk, (mk = [] \/ mk = [EvMakedirs dir])
                          /\ evs = EvGet (Some sess) url
                                     :: mk ++ image_events w dir sess items
                 end
             end).
Proof.
  eapply spec_bind; [apply spec_http_fetch|..].
  - intros content evs1 [-> Hc].
    destruct (http_get w url) as [c|e] eqn:Hget; [|done]. injection Hc as <-.
    eapply spec_bind; [apply spec_BeautifulSoup|..].
    + intros soup evs2 [-> Hs].
      destruct (html_parser w content) as [soup'|] eqn:Hparse; [|done].
      injection Hs as <-. cbv zeta.
      eapply spec_bind; [apply spec_ensure_dir|..].
      * intros [] evs3 Hmk.
        assert ((evs3 = [] \/ evs3 = [EvMakedirs dir])) as Hmk'.
        { destruct Hmk as [[_ ->]|Hmk]; [by left|].
          destruct (fs_makedirs w dir); destruct Hmk as [[=] ->]. by right. }
        assert (Forall (fun e => session_event sess e = true) evs3
                /\ archives evs3 = [] /\ epubs evs3 = [] /\ written evs3 = [])
          as (Hs3 & Ha3 & He3 & Hw3).
        { destruct Hmk' as [->| ->]; repeat split; by repeat constructor. }
        eapply spec_bind; [apply spec_image_loop|..].
        -- intros paths' evs4 (Hs4 & Ha4 & He4 & Hi4 & -> & Hx4).
           apply spec_ret. rewrite app_nil_r. cbn [app].
           change (EvGet (Some sess) url :: ?l)
             with ([EvGet (Some sess) url] ++ l).
           rewrite !Forall_app, !archives_app, !epubs_app, !written_app,
             Ha3, Ha4, He3, He4, Hw3.
           cbn [written archives epubs omap list_omap app snd].
           repeat split; try done.
           ++ repeat constructor. apply session_get.
           ++ rewrite snd_enumerate in Hx4.
              destruct (Hx4 H H1) as [[= ->] _]. done.
           ++ rewrite snd_enumerate in Hx4.
              destruct (Hx4 H H1) as [_ ->]. by exists evs3.
        -- intros e evs4 (Hs4 & Ha4 & He4 & Hi4 & Hr4 & Hx4). cbn [app].
           change (EvGet (Some sess) url :: ?l)
             with ([EvGet (Some sess) url] ++ l).
           rewrite !Forall_app, !archives_app, !epubs_app, !written_app,
             Ha3, Ha4, He3, He4, Hw3.
           cbn [written archives epubs omap list_omap app snd].
           repeat split; try done.
           ++ repeat constructor. apply session_get.
           ++ by rewrite Hr4 in H.
           ++ by rewrite Hr4 in H.
           ++ rewrite snd_enumerate in Hx4.
              by destruct (Hx4 H H1) as [[=] _].
           ++ rewrite snd_enumerate in Hx4.
              by destruct (Hx4 H H1) as [[=] _].
        -- by intros evs4 (_ & _ & _ & _ & [] & _).
      * intros e evs3 Hmk. cbn [app].
        destruct Hmk as [[[=] _]|Hmk].
        destruct (fs_makedirs w dir) eqn:Hd; destruct Hmk as [Hr ->];
          [done|injection Hr as ->..];
          cbn [written archives epubs omap list_omap app fs_exn];
          (split; [repeat constructor; apply session_get|]);
          repeat split; done.
      * intros evs3 [[[=] _]|Hmk].
        destruct (fs_makedirs w dir); by destruct Hmk as [[=] _].
    + intros e evs2 [-> He].
      destruct (html_parser w content) eqn:Hparse; [done|].
      injection He as ->.
      cbn [written archives epubs omap list_omap app].
      split; [repeat constructor; apply session_get|].
      repeat split; done.
    + intros evs2 [_ He]. by destruct (html_parser w content).
  - intros e evs1 [-> He].
    destruct (http_get w url) as [c|e'] eqn:Hget; [done|]. injection He as ->.
    cbn [written archives epubs omap list_omap].
    split; [repeat constructor; apply session_get|].
    repeat split; done.
  - intros evs1 [_ He]. by destruct (http_get w url).
Qed.

(** A page of the [while] loop. *)
Lemma spec_download_page (w : World) (dir : str) (sess : nat) (url : str)
    (paths : list str) :
  spec (download_page w dir sess url paths)
       (fun o evs =>
          Forall (fun e => session_event sess e = true) evs
          /\ archives evs = [] /\ epubs evs = []
          /\ Forall (image_of w dir) (written evs)
          /\ match o with
             | Ret r => r.2 = paths ++ map fst (written evs)
             | Raise e => is_RequestException e = false
             | OutOfFuel => False
             end
          /\ match http_get w url with
             | Fails e =>
                 if is_RequestException e
                 then o = Ret (None, paths)
                      /\ evs = [EvGet (Some sess) url;
                                EvLog ERROR (PageFailed url)]
                 else o = Raise e /\ evs = [EvGet (Some sess) url]
             | Done content =>
                 match html_parser w content with
                 | None =>
                     o = Raise ParserRejectedMarkup
                     /\ evs = [EvGet (Some sess) url]
                 | Some soup =>
                     (forall idx, fs_open_wb w (image_file dir idx) = FsDone) ->
                     fs_makedirs w dir = FsDone ->
                     Forall (fun u => handled w u = true) (image_urls soup) ->
                     let items :=
                       enumerate (length paths + 1) (image_urls soup) in
                     o = Ret (next_url soup,
                              paths ++ image_results w dir items)
                     /\ exists mk, (mk = [] \/ mk = [EvMakedirs dir])
                          /\ evs = EvGet (Some sess) url
                                     :: mk ++ image_events w dir sess items
                 end
             end).
Proof.
  unfold download_page. eapply spec_try; [apply spec_page_body|..].
  - intros r evs (Hs & Ha & He & Hi & Hr & Hx). do 5 (split; [done|]).
    destruct (http_get w url) as [content|e]; [done|].
    by destruct Hx as [[=] _].
  - intros e evs1 (Hs & Ha & He & Hi & Hr & Hx).
    destruct (is_RequestException e) eqn:Hreq.
    + destruct (Hr eq_refl) as [-> Hget].
      eapply spec_bind; [apply spec_log|..].
      * intros [] evs2 [_ ->]. apply spec_ret. rewrite app_nil_r.
        cbn [app written archives epubs omap list_omap map snd].
        rewrite app_nil_r, Hget, Hreq.
        split; [repeat constructor; apply session_get|]. by repeat split.
      * by intros e' evs2 [[=] _].
      * by intros evs2 [[=] _].
    + do 5 (split; [done|]).
      destruct (http_get w url) as [content|e'].
      * destruct (html_parser w content); [|done].
        intros Hwr Hmk Hh. by destruct (Hx Hwr Hmk Hh) as [[=] _].
      * destruct Hx as [[= <-] ->]. by rewrite Hreq.
  - by intros evs (_ & _ & _ & _ & [] & _).
Qed.

Lemma page_chain_falsy (w : World) (fuel : nat) (cur : option str) :
  truthy cur = false -> page_chain w fuel cur = Some [].
Proof.
  intros H. destruct fuel; cbn [page_chain]; by rewrite H.
Qed.

Lemma while_pages_falsy (w : World) (fuel : nat) (dir : str) (sess : nat)
    (cur : option str) (paths : list str) :
  truthy cur = false -> while_pages w fuel dir sess cur paths = ret paths.
Proof.
  intros H. destruct fuel; cbn [while_pages]; by rewrite H.
Qed.

Lemma while_pages_step (w : World) (fuel : nat) (dir : str) (sess : nat)
    (url : str) (paths : list str) :
  truthy (Some url) = true ->
  while_pages w (S fuel) dir sess (Some url) paths =
    (r <- download_page w dir sess url paths ;;
     while_pages w fuel dir sess r.1 r.2).
Proof. intros H. cbn [while_pages]. by rewrite H. Qed.

Lemma page_chain_step (w : World) (fuel : nat) (url : str) :
  truthy (Some url) = true ->
  page_chain w (S fuel) (Some url) =
    match http_get w url with
    | Done content =>
        match html_parser w content with
        | Some soup =>
            match page_chain w fuel (next_url soup) with
            | Some pages => Some (soup :: pages)
            | None => None
            end
        | None => None
        end
    | Fails e => if is_RequestException e then Some [] else None
    end.
Proof. intros H. cbn [page_chain]. by rewrite H. Qed.

Lemma next_url_truthy (soup : Node) (u : str) :
  next_url soup = Some u -> truthy (Some u) = true.
Proof.
  unfold next_url. intros H.
  destruct (find_string _ _ _); [|done].
  destruct (attrs_of _ !! _); [|done]. by injection H as <-.
Qed.

Lemma truthy_nonempty (u : str) : u <> [] -> truthy (Some u) = true.
Proof. by destruct u. Qed.

Lemma image_events_writes (w : World) (dir : str) (sess : nat)
    (items : list (nat * str)) :
  written (image_events w dir sess items) = image_writes w dir items.
Proof.
  unfold image_events, image_writes, written.
  induction items as [|it items IH]; [done|].
  cbn [flat_map omap list_omap app].
  destruct (http_get w it.2); cbn [omap list_omap app]; by rewrite IH.
Qed.

(** The log records of the images of a page: one for every image that is
    not fetched, in the order of the page. *)
Lemma image_events_failed (w : World) (dir : str) (sess : nat)
    (items : list (nat * str)) :
  failed_images (image_events w dir sess items)
  = List.filter (fun u => negb (fetched w u)) (map snd items).
Proof.
  unfold image_events, failed_images, fetched.
  induction items as [|it items IH]; [done|].
  cbn [flat_map omap list_omap app map List.filter].
  destruct (http_get w it.2); cbn [omap list_omap app negb]; by rewrite IH.
Qed.

(** The [while] loop.  It talks to the network through its session only
    and reaches no archive; what it returns are the files it has written;
    a [RequestException] never leaves it.  When the files can be written
    and every fetch of an image is handled, it returns as soon as the chain
    of pages ends, and what it returns, writes and logs is read off the
    chain. *)
Lemma spec_while_pages (w : World) (dir : str) (sess : nat) (fuel : nat)
    (cur : option str) (paths : list str) :
  spec (while_pages w fuel dir sess cur paths)
       (fun o evs =>
          Forall (fun e => session_event sess e = true) evs
          /\ archives evs = [] /\ epubs evs = []
          /\ Forall (image_of w dir) (written evs)
          /\ match o with
             | Ret paths' => paths' = paths ++ map fst (written evs)
             | Raise e => is_RequestException e = false
             | OutOfFuel => True
             end
          /\ ((forall idx, fs_open_wb w (image_file dir idx) = FsDone) ->
              fs_makedirs w dir = FsDone ->
              forall pages, page_chain w fuel cur = Some pages ->
              Forall (fun u => handled w u = true)
                     (flat_map image_urls pages) ->
              o = Ret (chain_paths w dir pages paths)
              /\ written evs = chain_writes w dir pages paths
              /\ failed_images evs
                 = List.filter (fun u => negb (fetched w u))
                               (flat_map image_urls pages))).
Proof.
  revert cur paths. induction fuel as [|fuel IH]; intros cur paths.
  - destruct (truthy cur) eqn:Ht.
    + assert (page_chain w 0 cur = None) as Hnone
        by (cbn [page_chain]; by rewrite Ht).
      cbn [while_pages]. rewrite Ht. intros st. exists []. rewrite app_nil_r.
      destruct cur; unfold out_of_fuel; cbn [fst snd];
        do 7 (split; [done|]); intros _ _ pages Hp; by rewrite Hnone in Hp.
    + rewrite while_pages_falsy by done. apply spec_ret.
      rewrite app_nil_r. do 5 (split; [done|]). intros _ _ pages Hp _.
      rewrite page_chain_falsy in Hp by done. by injection Hp as <-.
  - destruct (truthy cur) eqn:Ht.
    2:{ rewrite while_pages_falsy by done. apply spec_ret.
        rewrite app_nil_r. do 5 (split; [done|]). intros _ _ pages Hp _.
        rewrite page_chain_falsy in Hp by done. by injection Hp as <-. }
    destruct cur as [url|]; [|done].
    rewrite while_pages_step by done.
    eapply spec_bind; [apply spec_download_page|..].
    + intros [next paths'] evs1 (Hs1 & Ha1 & He1 & Hi1 & Hr1 & Hx1).
      cbn [fst snd] in *.
      eapply spec_weaken; [apply IH|].
      intros o evs2 (Hs2 & Ha2 & He2 & Hi2 & Hr2 & Hx2).
      rewrite archives_app, epubs_app, written_app, !Forall_app,
        Ha1, Ha2, He1, He2.
      do 4 (split; [done|]). split.
      { destruct o; [|done..]. subst. by rewrite map_app, app_assoc. }
      intros Hwr Hmk pages Hp Hh. rewrite page_chain_step in Hp by done.
      destruct (http_get w url) as [content|e] eqn:Hget.
      * destruct (html_parser w content) as [soup|] eqn:Hparse; [|done].
        destruct (page_chain w fuel (next_url soup)) as [pages'|] eqn:Hp';
          [|done].
        injection Hp as <-. cbn [flat_map] in Hh.
        apply Forall_app in Hh as [Hh1 Hh2].
        destruct (Hx1 Hwr Hmk Hh1) as ([= -> ->] & mk & Hmk' & ->).
        destruct (Hx2 Hwr Hmk pages' Hp' Hh2) as (-> & Hw2 & Hf2).
        cbn [chain_paths chain_writes flat_map]. split; [done|].
        change (EvGet (Some sess) url :: mk ++ ?l)
          with ([EvGet (Some sess) url] ++ mk ++ l).
        rewrite !written_app, !failed_images_app, Hw2, Hf2,
          image_events_writes, image_events_failed, snd_enumerate,
          List.filter_app.
        assert (written mk = [] /\ failed_images mk = []) as [-> ->]
          by (by destruct Hmk' as [->| ->]).
        done.
      * destruct (is_RequestException e) eqn:Hreq; [|done].
        injection Hp as <-. destruct Hx1 as [[= -> ->] ->].
        destruct (Hx2 Hwr Hmk [] (page_chain_falsy w fuel None eq_refl)
                    (Forall_nil_2 _)) as (-> & Hw2 & Hf2).
        split; [done|].
        change (written ([EvGet (Some sess) url;
                          EvLog ERROR (PageFailed url)] ++ evs2)
                = chain_writes w dir [] paths
                /\ failed_images ([EvGet (Some sess) url;
                                   EvLog ERROR (PageFailed url)] ++ evs2)
                  = List.filter (fun u => negb (fetched w u))
                                (flat_map image_urls [])).
        by rewrite written_app, failed_images_app, Hw2, Hf2.
    + intros e evs1 (Hs1 & Ha1 & He1 & Hi1 & Hr1 & Hx1).
      do 5 (split; [done|]).
      intros Hwr Hmk pages Hp Hh. rewrite page_chain_step in Hp by done.
      destruct (http_get w url) as [content|e'] eqn:Hget.
      * destruct (html_parser w content) as [soup|] eqn:Hparse; [|done].
        destruct (page_chain w fuel (next_url soup)) as [pages'|]; [|done].
        injection Hp as <-. cbn [flat_map] in Hh.
        apply Forall_app in Hh as [Hh1 _].
        by destruct (Hx1 Hwr Hmk Hh1) as [[=] _].
      * destruct (is_RequestException e'); [|done]. by destruct Hx1 as [[=] _].
    + by intros evs1 (_ & _ & _ & _ & [] & _).
Qed.

(** ** Reading the chain of pages *)

(** What [download_images] returns are the names of what it writes. *)
Lemma image_writes_names (w : World) (dir : str) (items : list (nat * str)) :
  map fst (image_writes w dir items) = image_results w dir items.
Proof.
  unfold image_writes, image_results.
  induction items as [|it items IH]; [done|]. cbn [omap list_omap].
  destruct (http_get w it.2); cbn [map fst]; by rewrite IH.
Qed.

Lemma image_writes_bodies (w : World) (dir : str) (items : list (nat * str)) :
  map snd (image_writes w dir items) = fetched_bodies w (map snd items).
Proof.
  unfold image_writes, fetched_bodies.
  induction items as [|it items IH]; [done|]. cbn [omap list_omap map].
  destruct (http_get w it.2); cbn [map snd]; by rewrite IH.
Qed.

Lemma fetched_bodies_app (w : World) (l1 l2 : list str) :
  fetched_bodies w (l1 ++ l2) = fetched_bodies w l1 ++ fetched_bodies w l2.
Proof. apply omap_app. Qed.

Lemma chain_writes_read (w : World) (dir : str) (pages : list Node)
    (paths : list str) :
  chain_paths w dir pages paths
  = paths ++ map fst (chain_writes w dir pages paths)
  /\ map snd (chain_writes w dir pages paths)
     = fetched_bodies w (flat_map image_urls pages).
Proof.
  revert paths. induction pages as [|page pages IH]; intros paths.
  - cbn. by rewrite app_nil_r.
  - cbn [chain_paths chain_writes flat_map].
    destruct (IH (paths ++ image_results w dir
                    (enumerate (length paths + 1) (image_urls page))))
      as [-> Hb].
    rewrite !map_app, Hb, image_writes_names, image_writes_bodies,
      snd_enumerate, fetched_bodies_app, <- app_assoc. done.
Qed.

(** When every image of a page can be fetched, the page gives one file
    per image, numbered onwards from [start]. *)
Lemma images_all_fetched (w : World) (dir : str)
    (urls : list str) (contents : list bytes) (start : nat) :
  Forall2 (fun u c => http_get w u = Done c) urls contents ->
  image_results w dir (enumerate start urls)
    = map (image_file dir) (seq start (length contents))
  /\ image_writes w dir (enumerate start urls)
     = zip (map (image_file dir) (seq start (length contents))) contents.
Proof.
  intros H. revert start. induction H as [|u c urls contents Hu _ IH];
    intros start; [done|].
  unfold enumerate, image_results, image_writes in *.
  cbn [length seq zip zip_with omap list_omap map fst snd].
  rewrite Hu. cbn [omap list_omap].
  destruct (IH (S start)) as [-> ->]. done.
Qed.

Lemma all_fetched_handled (w : World) (urls : list str)
    (contents : list bytes) :
  Forall2 (fun u c => http_get w u = Done c) urls contents ->
  Forall (fun u => handled w u = true) urls
  /\ fetched_bodies w urls = contents
  /\ List.filter (fun u => negb (fetched w u)) urls = [].
Proof.
  unfold handled, fetched, fetched_bodies.
  induction 1 as [|u c urls contents Hu _ (IH1 & IH2 & IH3)]; [done|].
  cbn [omap list_omap List.filter]. rewrite Hu. cbn [negb].
  repeat split; [constructor; [by rewrite Hu|done]|by rewrite IH2|done].
Qed.

(** Along a chain of pages whose images can all be fetched the files are
    numbered onwards from the images already collected. *)
Lemma chain_all_fetched (w : World) (dir : str) (pages : list Node)
    (contents : list bytes) (paths : list str) :
  Forall2 (fun u c => http_get w u = Done c)
          (flat_map image_urls pages) contents ->
  let names :=
    map (image_file dir) (seq (length paths + 1) (length contents)) in
  chain_paths w dir pages paths = paths ++ names
  /\ chain_writes w dir pages paths = zip names contents.
Proof.
  revert contents paths.
  induction pages as [|page pages IH]; intros contents paths Hc; cbv zeta.
  - apply Forall2_nil_inv_l in Hc as ->. cbn. by rewrite app_nil_r.
  - cbn [flat_map] in Hc.
    apply Forall2_app_inv_l in Hc as (c1 & c2 & Hc1 & Hc2 & ->).
    cbn [chain_paths chain_writes].
    destruct (images_all_fetched w dir _ _ (length paths + 1) Hc1)
      as [-> ->].
    destruct (IH c2 (paths ++ map (image_file dir)
                       (seq (length paths + 1) (length c1))) Hc2)
      as [-> ->].
    rewrite !length_app, length_map, length_seq, seq_app, map_app.
    replace (length paths + 1 + length c1)%nat
      with (length paths + length c1 + 1)%nat by lia.
    rewrite <- app_assoc. split; [done|].
    rewrite zip_with_app; [done|]. by rewrite length_map, length_seq.
Qed.

(** ** Files and traces *)

Lemma apply_writes_app (l1 l2 : list (str * bytes)) (fs : gmap str bytes) :
  apply_writes (l1 ++ l2) fs = apply_writes l2 (apply_writes l1 fs).
Proof. unfold apply_writes. by rewrite fold_left_app. Qed.

Lemma tracks_ret {A} (w : World) (a : A) : tracks w (ret a).
Proof. intros st. exists []. by rewrite app_nil_r. Qed.

Lemma tracks_bind {A B} (w : World) (m : M A) (k : A -> M B) :
  tracks w m -> (forall a, tracks w (k a)) -> tracks w (bind m k).
Proof.
  intros Hm Hk st. unfold bind.
  destruct (Hm st) as (evs1 & Htr1 & Hf1).
  destruct (m st) as [[a|e|] st1]; cbn [fst snd] in *; [|by exists evs1..].
  destruct (Hk a st1) as (evs2 & Htr2 & Hf2).
  exists (evs1 ++ evs2).
  by rewrite Htr2, Htr1, Hf2, Hf1, file_writes_app, apply_writes_app,
    <- app_assoc.
Qed.

Lemma tracks_try {A} (w : World) (m : M A) (catches : exn -> bool)
    (h : exn -> M A) :
  tracks w m -> (forall e, tracks w (h e)) -> tracks w (try_except m catches h).
Proof.
  intros Hm Hh st. unfold try_except.
  destruct (Hm st) as (evs1 & Htr1 & Hf1).
  destruct (m st) as [[a|e|] st1]; cbn [fst snd] in *;
    [by exists evs1| |by exists evs1].
  destruct (catches e); [|by exists evs1].
  destruct (Hh e st1) as (evs2 & Htr2 & Hf2).
  exists (evs1 ++ evs2).
  by rewrite Htr2, Htr1, Hf2, Hf1, file_writes_app, apply_writes_app,
    <- app_assoc.
Qed.

Lemma tracks_for_each {A B} (w : World) (l : list A) (body : A -> B -> M B)
    (s : B) :
  (forall x s', tracks w (body x s')) -> tracks w (for_each l body s).
Proof.
  intros Hbody. revert s. induction l as [|x l IH]; intros s.
  - apply tracks_ret.
  - cbn [for_each]. apply tracks_bind; [apply Hbody|apply IH].
Qed.

Lemma tracks_log (w : World) (lvl : level) (msg : message) :
  tracks w (log lvl msg).
Proof. intros st. by exists [EvLog lvl msg]. Qed.

Lemma tracks_http_fetch (w : World) (s : option nat) (u : str) :
  tracks w (http_fetch w s u).
Proof.
  intros st. exists [EvGet s u]. unfold http_fetch.
  by destruct (http_get w u).
Qed.

Lemma tracks_BeautifulSoup (w : World) (c : bytes) :
  tracks w (BeautifulSoup w c).
Proof.
  intros st. exists []. unfold BeautifulSoup. rewrite app_nil_r.
  by destruct (html_parser w c).
Qed.

Lemma tracks_write_file (w : World) (p : str) (c : bytes) :
  tracks w (write_file w p c).
Proof.
  intros st. unfold write_file. destruct (fs_open_wb w p).
  - by exists [EvWriteFile p c].
  - exists []. by rewrite app_nil_r.
  - exists []. by rewrite app_nil_r.
Qed.

Lemma tracks_ensure_dir (w : World) (d : str) : tracks w (ensure_dir w d).
Proof.
  intros st. mred.
  destruct (bool_decide (d ∈ dirs st ∨ d ∈ dom (files st))) eqn:E.
  - exists []. by rewrite app_nil_r.
  - rewrite E. destruct (fs_makedirs w d).
    + by exists [EvMakedirs d].
    + exists []. by rewrite app_nil_r.
    + exists []. by rewrite app_nil_r.
Qed.



Lemma tracks_out_of_fuel {A} (w : World) : tracks w (@out_of_fuel A).
Proof. intros st. exists []. by rewrite app_nil_r. Qed.

Lemma tracks_download_image (w : World) (dir : str) (sess : nat)
    (it : nat * str) (paths : list str) :
  tracks w (download_image w dir sess it paths).
Proof.
  unfold download_image. apply tracks_try.
  - apply tracks_bind; [apply tracks_http_fetch|]. intros c.
    apply tracks_bind; [apply tracks_write_file|]. intros _.
    apply tracks_ret.
  - intros _. apply tracks_bind; [apply tracks_log|]. intros _.
    apply tracks_ret.
Qed.

Lemma tracks_download_page (w : World) (dir : str) (sess : nat) (url : str)
    (paths : list str) :
  tracks w (download_page w dir sess url paths).
Proof.
  unfold download_page. apply tracks_try.
  - apply tracks_bind; [apply tracks_http_fetch|]. intros c.
    apply tracks_bind; [apply tracks_BeautifulSoup|]. intros soup. cbv zeta.
    apply tracks_bind; [apply tracks_ensure_dir|]. intros _.
    apply tracks_bind.
    + apply tracks_for_each. intros. apply tracks_download_image.
    + intros. apply tracks_ret.
  - intros _. apply tracks_bind; [apply tracks_log|]. intros _.
    apply tracks_ret.
Qed.

Lemma tracks_while_pages (w : World) (fuel : nat) (dir : str) (sess : nat)
    (cur : option str) (paths : list str) :
  tracks w (while_pages w fuel dir sess cur paths).
Proof.
  revert cur paths. induction fuel as [|fuel IH]; intros cur paths;
    cbn [while_pages]; destruct (truthy cur); try apply tracks_ret.
  - destruct cur; apply tracks_out_of_fuel.
  - destruct cur as [url|]; [|apply tracks_out_of_fuel].
    apply tracks_bind; [apply tracks_download_page|]. intros r. apply IH.
Qed.

(** Everything about a call of [download_images] at once: the trace it
    adds, the files after it, and what the loop keeps true. *)
Lemma download_images_run (w : World) (fuel : nat) (url dir : str)
    (sess : nat) (st : State) :
  let r := download_images w fuel url dir sess st in
  exists evs,
    trace r.2 = trace st ++ evs
    /\ sessions r.2 = sessions st
    /\ files r.2 = apply_writes (written evs) (files st)
    /\ Forall (fun e => session_event sess e = true) evs
    /\ archives evs = [] /\ epubs evs = []
    /\ Forall (image_of w dir) (written evs)
    /\ match r.1 with
       | Ret paths => paths = map fst (written evs)
       | Raise e => is_RequestException e = false
       | OutOfFuel => True
       end
    /\ ((forall idx, fs_open_wb w (image_file dir idx) = FsDone) ->
        fs_makedirs w dir = FsDone ->
        forall pages, page_chain w fuel (Some url) = Some pages ->
        Forall (fun u => handled w u = true) (flat_map image_urls pages) ->
        r.1 = Ret (chain_paths w dir pages [])
        /\ written evs = chain_writes w dir pages []
        /\ failed_images evs
           = List.filter (fun u => negb (fetched w u))
                         (flat_map image_urls pages)).
Proof.
  cbv zeta. unfold download_images.
  destruct (spec_while_pages w dir sess fuel (Some url) [] st)
    as (evs & Htr & Hs & Hsess & Ha & He & Hi & Hr & Hx).
  destruct (tracks_while_pages w fuel dir sess (Some url) [] st)
    as (evs' & Htr' & Hfiles).
  rewrite Htr in Htr'. apply app_inv_head in Htr'. subst evs'.
  rewrite file_writes_images in Hfiles by done.
  exists evs. do 7 (split; [done|]). split; [|exact Hx].
  by destruct (while_pages w fuel dir sess (Some url) [] st).1.
Qed.

Lemma apply_writes_other (ws : list (str * bytes)) (fs : gmap str bytes)
    (p : str) :
  p ∉ map fst ws -> apply_writes ws fs !! p = fs !! p.
Proof.
  revert fs. induction ws as [|[q c] ws IH]; intros fs Hp; [done|].
  cbn [map fst] in Hp. apply not_elem_of_cons in Hp as [Hne Hp].
  unfold apply_writes in *. cbn [fold_left fst snd]. rewrite IH by done.
  by rewrite lookup_insert_ne.
Qed.

(** A file written once holds what was written. *)
Lemma apply_writes_lookup (ws : list (str * bytes)) (fs : gmap str bytes)
    (k : nat) (p : str) (c : bytes) :
  NoDup (map fst ws) -> ws !! k = Some (p, c) ->
  apply_writes ws fs !! p = Some c.
Proof.
  revert fs k. induction ws as [|[q d] ws IH]; intros fs k Hnd Hk; [done|].
  cbn [map fst] in Hnd. apply NoDup_cons in Hnd as [Hq Hnd].
  destruct k as [|k]; cbn in Hk.
  - injection Hk as -> ->. unfold apply_writes. cbn [fold_left fst snd].
    fold (apply_writes ws (<[p:=c]> fs)). rewrite apply_writes_other by done.
    apply lookup_insert_eq.
  - unfold apply_writes. cbn [fold_left fst snd]. by eapply IH.
Qed.

Lemma image_names_NoDup (dir : str) (start n : nat) :
  NoDup (map (image_file dir) (seq start n)).
Proof.
  assert (Inj eq eq (image_file dir)) by (intros i j; apply image_file_inj).
  apply (NoDup_fmap_2 (image_file dir)), NoDup_seq.
Qed.

(** ** The claims on the image downloader *)

Lemma failed_images_elem (u : str) (evs : list event) :
  u ∈ failed_images evs <-> EvLog ERROR (ImageFailed u) ∈ evs.
Proof.
  unfold failed_images. rewrite list_elem_of_omap. split.
  - intros (e & He & Hu). by destruct e as [| | | | | |[] []]; simplify_eq.
  - intros H. by exists (EvLog ERROR (ImageFailed u)).
Qed.

(** The trace of [download_images] when every image can be fetched. *)
Lemma download_images_all_fetched (w : World) (fuel : nat)
    (chapter_url output_dir : str) (session : nat) (st : State)
    (pages : list Node) (contents : list bytes) :
  page_chain w fuel (Some chapter_url) = Some pages ->
  Forall2 (fun u c => http_get w u = Done c)
          (flat_map image_urls pages) contents ->
  (forall idx, fs_open_wb w (image_file output_dir idx) = FsDone) ->
  fs_makedirs w output_dir = FsDone ->
  let r := download_images w fuel chapter_url output_dir session st in
  let names := map (image_file output_dir) (seq 1 (length contents)) in
  r.1 = Ret names
  /\ written (trace r.2) = written (trace st) ++ zip names contents
  /\ files r.2 = apply_writes (zip names contents) (files st).
Proof.
  intros Hp Hc Hwr Hmk. cbv zeta.
  destruct (download_images_run w fuel chapter_url output_dir session st)
    as (evs & Htr & _ & Hfiles & _ & _ & _ & _ & _ & Hx).
  destruct (all_fetched_handled w _ _ Hc) as (Hh & _ & _).
  destruct (Hx Hwr Hmk pages Hp Hh) as (Hret & Hw & _).
  destruct (chain_all_fetched w output_dir pages contents [] Hc) as [Hcp Hcw].
  cbn [length Nat.add app] in Hcp, Hcw.
  by rewrite Hret, Htr, written_app, Hfiles, Hw, Hcp, Hcw.
Qed.

(** C2, amended. When every image of the chapter can be fetched (and the
    directory and the files can be written), the files written for the
    chapter are numbered 1, 2, ..., n in the order of the images along the
    whole chain of pages: no gap, no reordering, no image merged with
    another. *)
Theorem image_files_contiguous_when_all_fetched (w : World) (fuel : nat)
    (chapter_url output_dir : str) (session : nat) (st : State)
    (pages : list Node) (contents : list bytes) :
  page_chain w fuel (Some chapter_url) = Some pages ->
  Forall2 (fun u c => http_get w u = Done c)
          (flat_map image_urls pages) contents ->
  (forall idx, fs_open_wb w (image_file output_dir idx) = FsDone) ->
  fs_makedirs w output_dir = FsDone ->
  let r := download_images w fuel chapter_url output_dir session st in
  let names :=
    map (fun idx => os_path_join output_dir (format_03 idx ++ lit ".jpg"))
        (seq 1 (length contents)) in
  r.1 = Ret names
  /\ written (trace r.2) = written (trace st) ++ zip names contents.
Proof.
  intros Hp Hc Hwr Hmk. cbv zeta.
  destruct (download_images_all_fetched w fuel chapter_url output_dir session
              st pages contents Hp Hc Hwr Hmk) as (Hret & Hw & _).
  done.
Qed.



(** C3, amended. On a single page with five image URLs of which the third
    raises a [RequestException], [download_images] returns four paths,
    the files written are 001.jpg, 002.jpg, 004.jpg and 005.jpg, and the
    failure is logged: nothing is raised. *)
Theorem third_of_five_fails (w : World) (fuel : nat) (url dir : str)
    (sess : nat) (st : State) (content : bytes) (soup : Node)
    (u1 u2 u3 u4 u5 : str) (c1 c2 c4 c5 : bytes) :
  url <> [] ->
  http_get w url = Done content ->
  html_parser w content = Some soup ->
  image_urls soup = [u1; u2; u3; u4; u5] ->
  next_url soup = None ->
  http_get w u1 = Done c1 -> http_get w u2 = Done c2 ->
  http_get w u3 = Fails RequestException ->
  http_get w u4 = Done c4 -> http_get w u5 = Done c5 ->
  (forall idx, fs_open_wb w (image_file dir idx) = FsDone) ->
  fs_makedirs w dir = FsDone ->
  let r := download_images w (S fuel) url dir sess st in
  r.1 = Ret [os_path_join dir (lit "001.jpg"); os_path_join dir (lit "002.jpg");
             os_path_join dir (lit "004.jpg"); os_path_join dir (lit "005.jpg")]
  /\ written (trace r.2)
     = written (trace st)
       ++ [(os_path_join dir (lit "001.jpg"), c1);
           (os_path_join dir (lit "002.jpg"), c2);
           (os_path_join dir (lit "004.jpg"), c4);
           (os_path_join dir (lit "005.jpg"), c5)]
  /\ EvLog ERROR (ImageFailed u3) ∈ trace r.2.
Proof.
  intros Hurl Hget Hparse Himgs Hnext H1 H2 H3 H4 H5 Hwr Hmk. cbv zeta.
  destruct (download_images_run w (S fuel) url dir sess st)
    as (evs & Htr & _ & _ & _ & _ & _ & _ & _ & Hx).
  assert (page_chain w (S fuel) (Some url) = Some [soup]) as Hp.
  { rewrite page_chain_step, Hget, Hparse, Hnext by by apply truthy_nonempty.
    by rewrite page_chain_falsy. }
  destruct (Hx Hwr Hmk _ Hp) as (Hret & Hw & Hf).
  { cbn [flat_map]. rewrite app_nil_r, Himgs. unfold handled.
    rewrite !Forall_cons, H1, H2, H3, H4, H5. by repeat split. }
  cbn [flat_map chain_paths chain_writes] in Hret, Hw, Hf.
  rewrite app_nil_r, Himgs in Hf. rewrite Himgs in Hret, Hw.
  unfold image_results, image_writes, enumerate, fetched in Hret, Hw, Hf.
  cbn [length seq zip zip_with omap list_omap fst snd app Nat.add
       List.filter] in Hret, Hw, Hf.
  rewrite H1, H2, H3, H4, H5 in Hret, Hw, Hf.
  cbn [omap list_omap app negb] in Hret, Hw, Hf.
  split; [exact Hret|]. split; [by rewrite Htr, written_app, Hw|].
  rewrite Htr. apply elem_of_app. right. apply failed_images_elem.
  rewrite Hf. apply list_elem_of_here.
Qed.

(** ** What [download_images] keeps true *)

(** X6. Whatever the site answers, [download_images] returns exactly the
    paths of the files it has written, in the order of the writes; every
    such file lies in the output directory under a numbered name and holds
    the body of a URL that could be fetched; the files change by these
    writes only; all its network calls go through the session it was
    given, and it reaches and writes no archive.  A [RequestException]
    never leaves it: what can leave it is an exception of another class,
    of a fetch, of the parser, of [os.makedirs] or of [open]. *)
Theorem download_images_returns_what_it_wrote (w : World) (fuel : nat)
    (chapter_url output_dir : str) (session : nat) (st : State) :
  let r := download_images w fuel chapter_url output_dir session st in
  exists evs,
    trace r.2 = trace st ++ evs
    /\ files r.2 = apply_writes (written evs) (files st)
    /\ Forall (fun pc => exists idx u,
                 pc.1 = os_path_join output_dir (format_03 idx ++ lit ".jpg")
                 /\ http_get w u = Done pc.2) (written evs)
    /\ Forall (fun e => session_event session e = true) evs
    /\ archives evs = [] /\ epubs evs = []
    /\ match r.1 with
       | Ret image_paths => image_paths = map fst (written evs)
       | Raise e => is_RequestException e = false
       | OutOfFuel => True
       end.
Proof.
  cbv zeta.
  destruct (download_images_run w fuel chapter_url output_dir session st)
    as (evs & Htr & _ & Hfiles & Hsess & Ha & He & Hi & Hr & _).
  exists evs. by repeat split.
Qed.

(** X7. When the files can be written, every fetch of an image gives a
    body or raises a [RequestException], and the chain of pages ends,
    [download_images] returns, and on every page the files are numbered
    from one above the number of files collected so far, a failed image
    using up its number: the result and the writes are those of
    [chain_paths] and [chain_writes]. *)
Theorem download_images_numbering (w : World) (fuel : nat)
    (chapter_url output_dir : str) (session : nat) (st : State)
    (pages : list Node) :
  page_chain w fuel (Some chapter_url) = Some pages ->
  Forall (fun u => handled w u = true) (flat_map image_urls pages) ->
  (forall idx, fs_open_wb w (image_file output_dir idx) = FsDone) ->
  fs_makedirs w output_dir = FsDone ->
  let r := download_images w fuel chapter_url output_dir session st in
  r.1 = Ret (chain_paths w output_dir pages [])
  /\ written (trace r.2)
     = written (trace st) ++ chain_writes w output_dir pages []
  /\ map fst (chain_writes w output_dir pages [])
     = chain_paths w output_dir pages [].
Proof.
  intros Hp Hh Hwr Hmk. cbv zeta.
  destruct (download_images_run w fuel chapter_url output_dir session st)
    as (evs & Htr & _ & _ & _ & _ & _ & _ & _ & Hx).
  destruct (Hx Hwr Hmk pages Hp Hh) as (Hret & Hw & _).
  split; [done|]. split; [by rewrite Htr, written_app, Hw|].
  by destruct (chain_writes_read w output_dir pages []) as [-> _].
Qed.

Lemma self_link_runs_out (w : World) (url dir : str) (sess : nat)
    (content : bytes) (soup : Node) :
  url <> [] ->
  http_get w url = Done content ->
  html_parser w content = Some soup ->
  next_url soup = Some url ->
  Forall (fun u => handled w u = true) (image_urls soup) ->
  (forall idx, fs_open_wb w (image_file dir idx) = FsDone) ->
  fs_makedirs w dir = FsDone ->
  forall fuel paths st,
    (while_pages w fuel dir sess (Some url) paths st).1 = OutOfFuel.
Proof.
  intros Hurl Hget Hparse Hnext Hh Hwr Hmk.
  pose proof (truthy_nonempty _ Hurl) as Ht.
  induction fuel as [|fuel IH]; intros paths st.
  - cbn [while_pages]. by rewrite Ht.
  - rewrite while_pages_step by done. unfold bind.
    destruct (spec_download_page w dir sess url paths st)
      as (evs & _ & _ & _ & _ & _ & _ & _ & Hx).
    rewrite Hget, Hparse in Hx. destruct (Hx Hwr Hmk Hh) as [Hret _].
    destruct (download_page w dir sess url paths st) as [o st1].
    cbn [fst snd] in *. subst o. cbn [fst snd]. rewrite Hnext. apply IH.
Qed.

(** X8. There is no guard against a cycle of pages: when the next-page
    link of a page leads back to the page (and the page can be worked on:
    its files can be written and no fetch of an image raises anything but
    a [RequestException]), [download_images] does not return, whatever the
    bound on the number of pages. *)
Theorem self_linked_page_never_ends (w : World) (url dir : str) (sess : nat)
    (content : bytes) (soup : Node) :
  url <> [] ->
  http_get w url = Done content ->
  html_parser w content = Some soup ->
  next_url soup = Some url ->
  Forall (fun u => handled w u = true) (image_urls soup) ->
  (forall idx, fs_open_wb w (image_file dir idx) = FsDone) ->
  fs_makedirs w dir = FsDone ->
  forall fuel st, (download_images w fuel url dir sess st).1 = OutOfFuel.
Proof.
  intros Hurl Hget Hparse Hnext Hh Hwr Hmk fuel st.
  by apply (self_link_runs_out w url dir sess content soup).
Qed.

(** X9. After a failed image the numbering of the next page overlaps with
    the files already written: with a first page of two images of which
    the fetch of the first raises a [RequestException], and a second page
    of one image, 002.jpg is written twice, is returned twice, and in the
    end holds the image of the second page; the second image of the first
    page is lost. *)
Theorem next_page_overwrites_after_failure (w : World) (fuel : nat)
    (url dir : str) (sess : nat) (st : State) (content1 content2 : bytes)
    (soup1 soup2 : Node) (url2 u1 u2 u3 : str) (c2 c3 : bytes) :
  url <> [] ->
  http_get w url = Done content1 ->
  html_parser w content1 = Some soup1 ->
  image_urls soup1 = [u1; u2] ->
  next_url soup1 = Some url2 ->
  http_get w url2 = Done content2 ->
  html_parser w content2 = Some soup2 ->
  image_urls soup2 = [u3] ->
  next_url soup2 = None ->
  http_get w u1 = Fails RequestException -> http_get w u2 = Done c2 ->
  http_get w u3 = Done c3 ->
  (forall idx, fs_open_wb w (image_file dir idx) = FsDone) ->
  fs_makedirs w dir = FsDone ->
  let r := download_images w (S (S fuel)) url dir sess st in
  let file := os_path_join dir (lit "002.jpg") in
  r.1 = Ret [file; file]
  /\ written (trace r.2) = written (trace st) ++ [(file, c2); (file, c3)]
  /\ files r.2 !! file = Some c3.
Proof.
  intros Hurl Hget1 Hparse1 Himg1 Hnext1 Hget2 Hparse2 Himg2 Hnext2 H1 H2 H3
    Hwr Hmk.
  cbv zeta.
  destruct (download_images_run w (S (S fuel)) url dir sess st)
    as (evs & Htr & _ & Hfiles & _ & _ & _ & _ & _ & Hx).
  assert (page_chain w (S (S fuel)) (Some url) = Some [soup1; soup2]) as Hp.
  { rewrite page_chain_step, Hget1, Hparse1, Hnext1
      by by apply truthy_nonempty.
    rewrite page_chain_step, Hget2, Hparse2, Hnext2
      by by eapply next_url_truthy.
    by rewrite page_chain_falsy. }
  destruct (Hx Hwr Hmk _ Hp) as (Hret & Hw & _).
  { cbn [flat_map]. rewrite app_nil_r, Himg1, Himg2. unfold handled.
    cbn [app]. rewrite !Forall_cons, H1, H2, H3. by repeat split. }
  assert (chain_paths w dir [soup1; soup2] []
          = [image_file dir 2; image_file dir 2]) as Hpaths.
  { cbn [chain_paths]. rewrite Himg1, Himg2.
    unfold image_results, enumerate.
    cbn [length seq zip zip_with omap list_omap fst snd app Nat.add].
    rewrite H1, H2. cbn [omap list_omap app length Nat.add seq zip_with].
    by rewrite H3. }
  assert (chain_writes w dir [soup1; soup2] []
          = [(image_file dir 2, c2); (image_file dir 2, c3)]) as Hwrites.
  { cbn [chain_writes]. rewrite Himg1, Himg2.
    unfold image_results, image_writes, enumerate.
    cbn [length seq zip zip_with omap list_omap fst snd app Nat.add].
    rewrite H1, H2. cbn [omap list_omap app length Nat.add seq zip_with].
    by rewrite H3. }
  rewrite Hpaths in Hret. rewrite Hwrites in Hw.
  split; [exact Hret|]. split; [by rewrite Htr, written_app, Hw|].
  rewrite Hfiles, Hw. unfold apply_writes. cbn [fold_left fst snd].
  apply lookup_insert_eq.
Qed.

Lemma files_after_all_fetched (w : World) (fuel : nat)
    (chapter_url output_dir : str) (session : nat) (st : State)
    (pages : list Node) (contents : list bytes) :
  page_chain w fuel (Some chapter_url) = Some pages ->
  Forall2 (fun u c => http_get w u = Done c)
          (flat_map image_urls pages) contents ->
  (forall idx, fs_open_wb w (image_file output_dir idx) = FsDone) ->
  fs_makedirs w output_dir = FsDone ->
  forall k c,
    contents !! k = Some c ->
    files (download_images w fuel chapter_url output_dir session st).2
      !! image_file output_dir (S k) = Some c.
Proof.
  intros Hp Hc Hwr Hmk k c Hk.
  destruct (download_images_all_fetched w fuel chapter_url output_dir
              session st pages contents Hp Hc Hwr Hmk) as (_ & _ & Hfiles).
  cbv zeta in Hfiles. rewrite Hfiles.
  eapply (apply_writes_lookup _ _ k).
  - rewrite fst_zip; [apply image_names_NoDup|].
    rewrite length_map, length_seq. lia.
  - apply lookup_zip_with_Some. exists (image_file output_dir (S k)), c.
    split; [done|]. split; [|done].
    rewrite list_lookup_fmap, lookup_seq_lt by by eapply lookup_lt_Some.
    done.
Qed.

(** X10. When every image of the chapter can be fetched and the files can
    be written, no file is written twice, and after the call the file
    numbered k+1 holds the body of the image at position k of the chain of
    pages. *)
Theorem all_fetched_files_hold_the_images (w : World) (fuel : nat)
    (chapter_url output_dir : str) (session : nat) (st : State)
    (pages : list Node) (contents : list bytes) :
  page_chain w fuel (Some chapter_url) = Some pages ->
  Forall2 (fun u c => http_get w u = Done c)
          (flat_map image_urls pages) contents ->
  (forall idx, fs_open_wb w (image_file output_dir idx) = FsDone) ->
  fs_makedirs w output_dir = FsDone ->
  let r := download_images w fuel chapter_url output_dir session st in
  NoDup (map (image_file output_dir) (seq 1 (length contents)))
  /\ Forall (fun kc => files r.2 !! image_file output_dir (S kc.1)
                       = Some kc.2)
            (zip (seq 0 (length contents)) contents).
Proof.
  intros Hp Hc Hwr Hmk. cbv zeta. split; [apply image_names_NoDup|].
  apply Forall_forall. intros [k c] Hin. cbn [fst snd].
  apply list_elem_of_lookup in Hin as [i Hi].
  apply lookup_zip_with_Some in Hi as (k' & c' & [= <- <-] & Hk & Hci).
  apply lookup_seq in Hk as [-> Hlt]. cbn [Nat.add].
  by eapply files_after_all_fetched.
Qed.

(** ** The three readers of the index page *)

(** What the three functions have in common: a fetch of the index page
    outside any session, the parse, and a handler for
    [RequestException] that logs and returns a sentinel. *)
Lemma index_reader_run {A} (w : World) (index_url : str)
    (read : Node -> M A) (failed : message) (sentinel : A) (st : State) :
  let m :=
    try_except (content <- http_fetch w None index_url ;;
                soup <- BeautifulSoup w content ;;
                read soup)
               is_RequestException
               (fun _ => log ERROR failed ;;; ret sentinel) in
  let st1 := emit (EvGet None index_url) st in
  match http_get w index_url with
  | Fails e =>
      if is_RequestException e
      then m st = (Ret sentinel, emit (EvLog ERROR failed) st1)
      else m st = (Raise e, st1)
  | Done content =>
      match html_parser w content with
      | None => m st = (Raise ParserRejectedMarkup, st1)
      | Some soup =>
          m st = try_except (read soup) is_RequestException
                            (fun _ => log ERROR failed ;;; ret sentinel) st1
      end
  end.
Proof.
  cbv zeta. unfold try_except, bind, http_fetch, BeautifulSoup.
  destruct (http_get w index_url) as [content|e]; cbv beta iota.
  - destruct (html_parser w content); cbv beta iota; done.
  - destruct (is_RequestException e); done.
Qed.

(** X4. [fetch_manga_title] touches no file: it fetches the index page
    once, outside any session, and returns the text of the first
    [h1.comics-detail__title] without the whitespace around it; when the
    page has no such heading it logs a warning, when the fetch raises a
    [RequestException] it logs an error, and in both cases it returns the
    sentinel.  An exception of another class of the fetch, and the
    rejection of the page by the parser, leave the function.  A title
    returned never starts or ends with whitespace. *)
Theorem fetch_manga_title_behaviour (w : World) (index_url : str)
    (st : State) :
  let r := fetch_manga_title w index_url st in
  files r.2 = files st /\ dirs r.2 = dirs st
  /\ match http_get w index_url with
     | Fails e =>
         if is_RequestException e
         then r.1 = Ret unknown_manga
              /\ trace r.2 = trace st ++ [EvGet None index_url;
                                          EvLog ERROR (FetchTitleFailed index_url)]
         else r.1 = Raise e /\ trace r.2 = trace st ++ [EvGet None index_url]
     | Done content =>
         match html_parser w content with
         | None =>
             r.1 = Raise ParserRejectedMarkup
             /\ trace r.2 = trace st ++ [EvGet None index_url]
         | Some soup =>
             match select_one_class (lit "h1") (lit "comics-detail__title")
                                    soup with
             | None =>
                 r.1 = Ret unknown_manga
                 /\ trace r.2 = trace st ++ [EvGet None index_url;
                                             EvLog WARNING (TitleNotFound index_url)]
             | Some title_tag =>
                 r.1 = Ret (strip (get_text title_tag))
                 /\ trace r.2 = trace st ++ [EvGet None index_url]
             end
         end
     end
  /\ match r.1 with
     | Ret title =>
         default false (is_space <$> head title) = false
         /\ default false (is_space <$> last title) = false
     | Raise e => is_RequestException e = false
     | OutOfFuel => False
     end.
Proof.
  cbv zeta. unfold fetch_manga_title.
  pose proof (index_reader_run w index_url
    (fun soup =>
       match select_one_class (lit "h1") (lit "comics-detail__title") soup with
       | Some title_tag => ret (strip (get_text title_tag))
       | None => log WARNING (TitleNotFound index_url) ;;; ret unknown_manga
       end)
    (FetchTitleFailed index_url) unknown_manga st) as H.
  cbv zeta in H.
  destruct (http_get w index_url) as [content|e].
  - destruct (html_parser w content) as [soup|]; rewrite H; [|done].
    destruct (select_one_class _ _ soup) as [tag|]; mred;
      unfold emit; cbn [fst snd trace files dirs]; rewrite <- ?app_assoc.
    + by destruct (strip_no_edge_space (get_text tag)).
    + done.
  - destruct (is_RequestException e) eqn:He; rewrite H;
      unfold emit; cbn [fst snd trace files dirs]; rewrite <- ?app_assoc;
      done.
Qed.

(** X5. [fetch_manga_author] behaves in the same way on
    [h2.comics-detail__author], with its own sentinel and log records. *)
Theorem fetch_manga_author_behaviour (w : World) (index_url : str)
    (st : State) :
  let r := fetch_manga_author w index_url st in
  files r.2 = files st /\ dirs r.2 = dirs st
  /\ match http_get w index_url with
     | Fails e =>
         if is_RequestException e
         then r.1 = Ret unknown_author
              /\ trace r.2 = trace st ++ [EvGet None index_url;
                                          EvLog ERROR (FetchAuthorFailed index_url)]
         else r.1 = Raise e /\ trace r.2 = trace st ++ [EvGet None index_url]
     | Done content =>
         match html_parser w content with
         | None =>
             r.1 = Raise ParserRejectedMarkup
             /\ trace r.2 = trace st ++ [EvGet None index_url]
         | Some soup =>
             match select_one_class (lit "h2") (lit "comics-detail__author")
                                    soup with
             | None =>
                 r.1 = Ret unknown_author
                 /\ trace r.2 = trace st ++ [EvGet None index_url;
                                             EvLog WARNING (AuthorNotFound index_url)]
             | Some author_tag =>
                 r.1 = Ret (strip (get_text author_tag))
                 /\ trace r.2 = trace st ++ [EvGet None index_url]
             end
         end
     end
  /\ match r.1 with
     | Ret author =>
         default false (is_space <$> head author) = false
         /\ default false (is_space <$> last author) = false
     | Raise e => is_RequestException e = false
     | OutOfFuel => False
     end.
Proof.
  cbv zeta. unfold fetch_manga_author.
  pose proof (index_reader_run w index_url
    (fun soup =>
       match select_one_class (lit "h2") (lit "comics-detail__author") soup with
       | Some author_tag => ret (strip (get_text author_tag))
       | None => log WARNING (AuthorNotFound index_url) ;;; ret unknown_author
       end)
    (FetchAuthorFailed index_url) unknown_author st) as H.
  cbv zeta in H.
  destruct (http_get w index_url) as [content|e].
  - destruct (html_parser w content) as [soup|]; rewrite H; [|done].
    destruct (select_one_class _ _ soup) as [tag|]; mred;
      unfold emit; cbn [fst snd trace files dirs]; rewrite <- ?app_assoc.
    + by destruct (strip_no_edge_space (get_text tag)).
    + done.
  - destruct (is_RequestException e) eqn:He; rewrite H;
      unfold emit; cbn [fst snd trace files dirs]; rewrite <- ?app_assoc;
      done.
Qed.

(** ** The orchestrator *)

(** Each of the three functions that read the index page fetches it once,
    without a session; it then returns after at most one log record, or,
    when the fetch raises an exception that is not a [RequestException]
    or the parser rejects the page, raises. *)
Lemma spec_fetch_manga_title (w : World) (index_url : str) :
  spec (fetch_manga_title w index_url)
       (fun o evs =>
          match index_soup w index_url with
          | Fails e => o = Raise e /\ evs = [EvGet None index_url]
          | Done _ =>
              o = Ret (title_of w index_url)
              /\ exists logs, evs = EvGet None index_url :: logs
                              /\ Forall (fun e => is_index_log e = true) logs
          end).
Proof.
  intros st. unfold fetch_manga_title, title_of, index_soup.
  pose proof (index_reader_run w index_url
    (fun soup =>
       match select_one_class (lit "h1") (lit "comics-detail__title") soup with
       | Some title_tag => ret (strip (get_text title_tag))
       | None => log WARNING (TitleNotFound index_url) ;;; ret unknown_manga
       end)
    (FetchTitleFailed index_url) unknown_manga st) as H.
  cbv zeta in H.
  destruct (http_get w index_url) as [content|e].
  - destruct (html_parser w content) as [soup|]; rewrite H.
    + destruct (select_one_class _ _ soup) as [tag|]; mred;
        unfold emit; cbn [fst snd trace sessions]; rewrite <- ?app_assoc;
        eexists; (split; [reflexivity|]); (split; [done|]);
        (split; [done|]); eexists; (split; [reflexivity|]);
        by repeat constructor.
    + unfold emit; cbn [fst snd trace sessions]. eexists. by repeat split.
  - destruct (is_RequestException e); rewrite H;
      unfold emit; cbn [fst snd trace sessions]; rewrite <- ?app_assoc.
    + eexists; (split; [reflexivity|]); (split; [done|]);
        (split; [done|]); eexists; (split; [reflexivity|]);
        by repeat constructor.
    + eexists. by repeat split.
Qed.

Lemma spec_fetch_manga_author (w : World) (index_url : str) :
  spec (fetch_manga_author w index_url)
       (fun o evs =>
          match index_soup w index_url with
          | Fails e => o = Raise e /\ evs = [EvGet None index_url]
          | Done _ =>
              o = Ret (author_of w index_url)
              /\ exists logs, evs = EvGet None index_url :: logs
                              /\ Forall (fun e => is_index_log e = true) logs
          end).
Proof.
  intros st. unfold fetch_manga_author, author_of, index_soup.
  pose proof (index_reader_run w index_url
    (fun soup =>
       match select_one_class (lit "h2") (lit "comics-detail__author") soup with
       | Some author_tag => ret (strip (get_text author_tag))
       | None => log WARNING (AuthorNotFound index_url) ;;; ret unknown_author
       end)
    (FetchAuthorFailed index_url) unknown_author st) as H.
  cbv zeta in H.
  destruct (http_get w index_url) as [content|e].
  - destruct (html_parser w content) as [soup|]; rewrite H.
    + destruct (select_one_class _ _ soup) as [tag|]; mred;
        unfold emit; cbn [fst snd trace sessions]; rewrite <- ?app_assoc;
        eexists; (split; [reflexivity|]); (split; [done|]);
        (split; [done|]); eexists; (split; [reflexivity|]);
        by repeat constructor.
    + unfold emit; cbn [fst snd trace sessions]. eexists. by repeat split.
  - destruct (is_RequestException e); rewrite H;
      unfold emit; cbn [fst snd trace sessions]; rewrite <- ?app_assoc.
    + eexists; (split; [reflexivity|]); (split; [done|]);
        (split; [done|]); eexists; (split; [reflexivity|]);
        by repeat constructor.
    + eexists. by repeat split.
Qed.

Lemma spec_fetch_chapter_links_and_titles (w : World) (index_url : str) :
  spec (fetch_chapter_links_and_titles w index_url)
       (fun o evs =>
          match index_soup w index_url with
          | Fails e => o = Raise e /\ evs = [EvGet None index_url]
          | Done _ =>
              o = Ret (chapters_of w index_url)
              /\ exists logs, evs = EvGet None index_url :: logs
                              /\ Forall (fun e => is_index_log e = true) logs
          end).
Proof.
  intros st. unfold fetch_chapter_links_and_titles, chapters_of, index_soup.
  pose proof (index_reader_run w index_url
    (fun soup => ret (extract_chapters soup))
    (FetchChaptersFailed index_url) [] st) as H.
  cbv zeta in H.
  destruct (http_get w index_url) as [content|e].
  - destruct (html_parser w content) as [soup|]; rewrite H.
    + mred. unfold emit; cbn [fst snd trace sessions]; rewrite <- ?app_assoc;
        eexists; (split; [reflexivity|]); (split; [done|]);
        (split; [done|]); eexists; (split; [reflexivity|]);
        by repeat constructor.
    + unfold emit; cbn [fst snd trace sessions]. eexists. by repeat split.
  - destruct (is_RequestException e); rewrite H;
      unfold emit; cbn [fst snd trace sessions]; rewrite <- ?app_assoc.
    + eexists; (split; [reflexivity|]); (split; [done|]);
        (split; [done|]); eexists; (split; [reflexivity|]);
        by repeat constructor.
    + eexists. by repeat split.
Qed.

(** One chapter: the body of the loop of lines 178-182. *)
Lemma spec_download_chapter (w : World) (fuel : nat) (manga_title out : str)
    (s : nat) (ch : str * str) :
  spec (download_chapter w fuel manga_title out s ch tt)
       (fun o evs =>
          Forall (image_of w (temp_image_dir out ch.1)) (written evs)
          /\ Forall (fun e => session_event s e = true) evs
          /\ Forall (fun pb => pb.1 = epub_file manga_title ch.1 out)
                    (epubs evs)
          /\ match o with
             | Ret _ => archives evs = [epub_file manga_title ch.1 out]
             | Raise e => archives evs = [] /\ is_RequestException e = false
             | OutOfFuel => archives evs = []
             end
          /\ (chapter_goes_through w fuel out ch ->
              fs_makedirs w out = FsDone -> o = Ret tt)).
Proof.
  unfold download_chapter, download_images.
  fold (temp_image_dir out ch.1).
  eapply spec_bind; [apply spec_while_pages|..].
  - intros paths evs1 (Hs1 & Ha1 & He1 & Hi1 & Hr1 & Hx1).
    eapply spec_weaken;
      [apply (spec_create_volume_epub w s manga_title ch.1 paths out)|].
    intros o evs2 (Hs2 & Hw2 & _ & Hcase). cbv beta.
    rewrite written_app, Hw2, app_nil_r, !Forall_app, archives_app, epubs_app,
      Ha1, He1.
    split; [done|]. split; [done|].
    destruct Hcase as [(-> & Hno & -> & ->)|(-> & -> & Hep)]; cbn [app].
    + split; [done|]. split; [by rewrite fs_exn_not_request|].
      intros _ Hmk. by rewrite Hmk in Hno.
    + by repeat split.
  - intros e evs1 (Hs1 & Ha1 & He1 & Hi1 & Hr1 & Hx1).
    rewrite He1. do 4 (split; [done|]).
    intros (Hwr & Hmk & pages & Hp & Hh) _.
    by destruct (Hx1 Hwr Hmk pages Hp Hh) as [[=] _].
  - intros evs1 (Hs1 & Ha1 & He1 & Hi1 & Hr1 & Hx1).
    rewrite He1. do 4 (split; [done|]).
    intros (Hwr & Hmk & pages & Hp & Hh) _.
    by destruct (Hx1 Hwr Hmk pages Hp Hh) as [[=] _].
Qed.

(** The loop over the chapters. *)
Lemma spec_chapter_loop (w : World) (fuel : nat) (manga_title out : str)
    (s : nat) (chapters : list (str * str)) :
  spec (for_each chapters (download_chapter w fuel manga_title out s) tt)
       (fun o evs =>
          Forall (fun pc => exists ch, ch ∈ chapters
                    /\ image_of w (temp_image_dir out ch.1) pc)
                 (written evs)
          /\ Forall (fun e => session_event s e = true) evs
          /\ Forall (fun pb => exists ch, ch ∈ chapters
                       /\ pb.1 = epub_file manga_title ch.1 out)
                    (epubs evs)
          /\ (exists k,
               archives evs
               = map (fun ch => epub_file manga_title ch.1 out)
                     (take k chapters)
               /\ match o with
                  | Ret _ => k = length chapters
                  | Raise e => (k < length chapters)%nat
                               /\ is_RequestException e = false
                  | OutOfFuel => (k < length chapters)%nat
                  end)
          /\ (Forall (chapter_goes_through w fuel out) chapters ->
              fs_makedirs w out = FsDone -> o = Ret tt)).
Proof.
  induction chapters as [|ch chapters IH].
  - apply spec_ret. repeat split; try done. by exists 0%nat.
  - cbn [for_each]. eapply spec_bind; [apply spec_download_chapter|..].
    + intros [] evs1 (Hi1 & Hs1 & He1 & Ha1 & Hx1).
      eapply spec_weaken; [apply IH|].
      intros o evs2 (Hi2 & Hs2 & He2 & (k & Ha2 & Hk) & Hx2).
      rewrite written_app, epubs_app, !Forall_app, archives_app, Ha1, Ha2.
      split; [split|split; [done|split; [split|split]]].
      * eapply Forall_impl; [exact Hi1|]. intros pc H. exists ch.
        split; [apply list_elem_of_here|done].
      * eapply Forall_impl; [exact Hi2|]. intros pc (ch' & Hin & H).
        exists ch'. split; [by apply list_elem_of_further|done].
      * eapply Forall_impl; [exact He1|]. intros pb H. exists ch.
        split; [apply list_elem_of_here|done].
      * eapply Forall_impl; [exact He2|]. intros pb (ch' & Hin & H).
        exists ch'. split; [by apply list_elem_of_further|done].
      * exists (S k). split; [done|].
        destruct o; cbn [length];
          [lia|destruct Hk; split; [lia|done]|lia].
      * intros [Hch Hrest]%Forall_cons Hmk. by apply Hx2.
    + intros e evs1 (Hi1 & Hs1 & He1 & [Ha1 Hreq] & Hx1).
      split; [|split; [done|split; [|split]]].
      * eapply Forall_impl; [exact Hi1|]. intros pc H. exists ch.
        split; [apply list_elem_of_here|done].
      * eapply Forall_impl; [exact He1|]. intros pb H. exists ch.
        split; [apply list_elem_of_here|done].
      * exists 0%nat. rewrite Ha1. split; [done|]. cbn [length].
        split; [lia|done].
      * intros [Hch Hrest]%Forall_cons Hmk. by specialize (Hx1 Hch Hmk).
    + intros evs1 (Hi1 & Hs1 & He1 & Ha1 & Hx1).
      split; [|split; [done|split; [|split]]].
      * eapply Forall_impl; [exact Hi1|]. intros pc H. exists ch.
        split; [apply list_elem_of_here|done].
      * eapply Forall_impl; [exact He1|]. intros pb H. exists ch.
        split; [apply list_elem_of_here|done].
      * exists 0%nat. rewrite Ha1. split; [done|]. cbn [length]. lia.
      * intros [Hch Hrest]%Forall_cons Hmk. by specialize (Hx1 Hch Hmk).
Qed.

Lemma run_with_session {A} (body : nat -> M A)
    (P : nat -> outcome A -> list event -> Prop) :
  (forall s, spec (body s) (P s)) ->
  run (with_session body)
      (fun s o evs =>
         exists evs', P s o evs'
           /\ evs = EvSessionOpen s :: evs'
                    ++ match o with
                       | OutOfFuel => []
                       | _ => [EvSessionClose s]
                       end).
Proof.
  intros Hbody st. unfold with_session.
  set (st1 := emit _ _).
  destruct (Hbody (sessions st) st1) as (evs & Htr & _ & HP).
  destruct (body (sessions st) st1) as [[a|e|] st2]; cbn [fst snd] in *;
    unfold emit; cbn [trace]; rewrite ?Htr; subst st1; unfold emit;
    cbn [trace]; rewrite <- ?app_assoc; eexists;
    (split; [reflexivity|]); exists evs; (split; [done|]);
    cbn [app]; by rewrite ?app_nil_r.
Qed.

Lemma run_bind {A B} (m : M A) (k : A -> M B)
    (P : outcome A -> list event -> Prop)
    (Q : nat -> outcome B -> list event -> Prop) (a : A) :
  spec m (fun o evs => o = Ret a /\ P o evs) ->
  (forall evs1, P (Ret a) evs1 ->
     run (k a) (fun s o evs2 => Q s o (evs1 ++ evs2))) ->
  run (bind m k) Q.
Proof.
  intros Hm Hk st. unfold bind.
  destruct (Hm st) as (evs1 & Htr & Hs & Hret & HP).
  destruct (m st) as [o st1]. cbn [fst snd] in *. subst o.
  destruct (Hk evs1 HP st1) as (evs2 & Htr2 & HQ).
  exists (evs1 ++ evs2). rewrite Htr2, Htr, <- app_assoc, <- Hs. done.
Qed.

Lemma session_events_calls (s : nat) (evs : list event) :
  Forall (fun e => session_event s e = true) evs ->
  opened evs = []
  /\ exists urls, net_calls evs = map (fun u => (Some s, u)) urls.
Proof.
  induction 1 as [|e evs He _ [IH1 (urls & IH2)]].
  - split; [done|]. by exists [].
  - unfold opened, net_calls in *. cbn [omap list_omap].
    destruct e as [[s'|] u| | | | | |]; try discriminate He;
      rewrite ?IH1, ?IH2; (split; [done|]); try by exists urls.
    apply bool_decide_eq_true in He as ->. by exists (u :: urls).
Qed.

Lemma index_log_silent (evs : list event) :
  Forall (fun e => is_index_log e = true) evs ->
  opened evs = [] /\ net_calls evs = [] /\ archives evs = []
  /\ written evs = [] /\ epubs evs = [].
Proof.
  induction 1 as [|e evs He _ (IH1 & IH2 & IH3 & IH4 & IH5)]; [done|].
  unfold opened, net_calls, archives, written, epubs in *.
  cbn [omap list_omap].
  by destruct e as [| | | | | |lvl []]; try discriminate He.
Qed.

(** The run, for any specification of the loop over the chapters: when the
    index page is read, three fetches of it outside any session, then one
    session, in which the chapters are worked on; when reading it raises,
    one fetch and the exception. *)
Lemma run_download_manga_with (w : World) (fuel : nat) (index_url : str)
    (P : nat -> outcome unit -> list event -> Prop) :
  (forall s,
     spec (for_each (chapters_of w index_url)
             (download_chapter w fuel (title_of w index_url)
                (output_directory (title_of w index_url)
                                  (author_of w index_url)) s) tt)
          (P s)) ->
  run (download_manga w fuel index_url)
      (fun s o evs =>
         match index_soup w index_url with
         | Fails e => o = Raise e /\ evs = [EvGet None index_url]
         | Done _ =>
             exists pre evs',
               evs = pre ++ EvSessionOpen s :: evs'
                     ++ match o with
                        | OutOfFuel => []
                        | _ => [EvSessionClose s]
                        end
               /\ net_calls pre = replicate 3 (None, index_url)
               /\ opened pre = [] /\ archives pre = [] /\ written pre = []
               /\ epubs pre = []
               /\ P s o evs'
         end).
Proof.
  intros HP. unfold download_manga.
  pose proof (spec_fetch_manga_title w index_url) as Ht.
  pose proof (spec_fetch_manga_author w index_url) as Hau.
  pose proof (spec_fetch_chapter_links_and_titles w index_url) as Hch.
  destruct (index_soup w index_url) as [soup|e].
  2:{ intros st. unfold bind. destruct (Ht st) as (evs & Htr & _ & Ho & ->).
      destruct (fetch_manga_title w index_url st) as [o st1].
      cbn [fst snd] in *. subst o. by exists [EvGet None index_url]. }
  eapply run_bind; [exact Ht|].
  intros evs1 (l1 & -> & Hl1).
  eapply run_bind; [exact Hau|].
  intros evs2 (l2 & -> & Hl2).
  eapply (run_bind _ _
            (fun _ evs =>
               evs = [EvLog INFO (DetectedTitle (title_of w index_url))])
            _ tt).
  { eapply spec_weaken; [apply spec_log|]. cbv beta.
    intros o evs [-> ->]. done. }
  intros evs3 ->.
  eapply (run_bind _ _
            (fun _ evs =>
               evs = [EvLog INFO (DetectedAuthor (author_of w index_url))])
            _ tt).
  { eapply spec_weaken; [apply spec_log|]. cbv beta.
    intros o evs [-> ->]. done. }
  intros evs4 ->. cbv zeta.
  eapply run_bind; [exact Hch|].
  intros evs5 (l3 & -> & Hl3).
  intros st.
  destruct (run_with_session _ _ HP st) as (evs & Htr & evs' & HPs & ->).
  eexists. split; [exact Htr|]. cbv beta.
  exists ((EvGet None index_url :: l1) ++ (EvGet None index_url :: l2)
          ++ [EvLog INFO (DetectedTitle (title_of w index_url))]
          ++ [EvLog INFO (DetectedAuthor (author_of w index_url))]
          ++ (EvGet None index_url :: l3)), evs'.
  split; [by rewrite <- !app_assoc|].
  destruct (index_log_silent _ Hl1) as (Ho1 & Hn1 & Ha1 & Hw1 & He1).
  destruct (index_log_silent _ Hl2) as (Ho2 & Hn2 & Ha2 & Hw2 & He2).
  destruct (index_log_silent _ Hl3) as (Ho3 & Hn3 & Ha3 & Hw3 & He3).
  change (EvGet None index_url :: ?l) with ([EvGet None index_url] ++ l).
  rewrite !net_calls_app, !opened_app, !archives_app, !written_app,
    !epubs_app.
  rewrite Ho1, Hn1, Ha1, Ho2, Hn2, Ha2, Ho3, Hn3, Ha3, Hw1, Hw2, Hw3,
    He1, He2, He3.
  do 5 (split; [reflexivity|]). exact HPs.
Qed.








Lemma closing_event_quiet (s : nat) (o : outcome unit) :
  let close := match o with OutOfFuel => [] | _ => [EvSessionClose s] end in
  written close = [] /\ archives close = [] /\ epubs close = []
  /\ net_calls close = [] /\ opened close = [].
Proof. by destruct o. Qed.

(** C4, amended. In every run in which the index page is read, it is
    fetched three times, once by each of [fetch_manga_title],
    [fetch_manga_author] and [fetch_chapter_links_and_titles], each time
    outside any session; then exactly one session is opened, and every
    later network call goes through it.  When the first fetch raises an
    exception that no handler catches, the run ends with it: one fetch,
    no session. *)
Theorem index_fetched_thrice_then_one_session (w : World) (fuel : nat)
    (index_url : str) (st : State) :
  exists evs urls,
    trace (download_manga w fuel index_url st).2 = trace st ++ evs
    /\ match index_soup w index_url with
       | Done _ =>
           net_calls evs
           = replicate 3 (None, index_url)
             ++ map (fun u => (Some (sessions st), u)) urls
           /\ opened evs = [sessions st]
       | Fails e =>
           (download_manga w fuel index_url st).1 = Raise e
           /\ net_calls evs = [(None, index_url)] /\ opened evs = []
       end.
Proof.
  destruct (run_download_manga_with w fuel index_url _
              (fun s => spec_chapter_loop w fuel (title_of w index_url)
                 (output_directory (title_of w index_url)
                                   (author_of w index_url))
                 s (chapters_of w index_url)) st)
    as (evs & Htr & H).
  destruct (index_soup w index_url) as [soup|e].
  - destruct H as (pre & evs' & -> & Hnet & Hop & _ & _ & _ & _ & Hall & _).
    destruct (session_events_calls _ _ Hall) as (Hop' & urls & Hnet').
    eexists _, urls. split; [exact Htr|].
    change (EvSessionOpen ?s :: ?l) with ([EvSessionOpen s] ++ l).
    destruct (closing_event_quiet (sessions st)
                (download_manga w fuel index_url st).1)
      as (_ & _ & _ & Hcn & Hco).
    cbv zeta in Hcn, Hco.
    rewrite !net_calls_app, !opened_app, Hnet, Hnet', Hop, Hop', Hcn, Hco.
    cbn [net_calls opened omap list_omap app]. by rewrite app_nil_r.
  - destruct H as [Hret ->]. by exists [EvGet None index_url], [].
Qed.

(** C6, amended. A failure that the handlers catch does not stop the run.
    When the index page is read, the output directory can be made, and
    every chapter goes through (its image directory and files can be
    written, its chain of pages ends, and no fetch of an image raises
    anything but a [RequestException]), then whatever pages and images
    fail with a [RequestException], whatever image files cannot be read
    back and whatever archives cannot be written, [download_manga]
    returns, and every chapter, in the order of the list, reaches the
    writing of its archive. *)
Theorem every_chapter_is_processed (w : World) (fuel : nat)
    (index_url : str) (st : State) (soup : option Node) :
  index_soup w index_url = Done soup ->
  let title := title_of w index_url in
  let out := output_directory title (author_of w index_url) in
  fs_makedirs w out = FsDone ->
  Forall (chapter_goes_through w fuel out) (chapters_of w index_url) ->
  let r := download_manga w fuel index_url st in
  r.1 = Ret tt
  /\ exists evs,
       trace r.2 = trace st ++ evs
       /\ archives evs
          = map (fun ch => epub_file title ch.1 out) (chapters_of w index_url).
Proof.
  intros Hindex title out Hmk Hch. cbv zeta.
  destruct (run_download_manga_with w fuel index_url _
              (fun s => spec_chapter_loop w fuel (title_of w index_url)
                 (output_directory (title_of w index_url)
                                   (author_of w index_url))
                 s (chapters_of w index_url)) st)
    as (evs & Htr & H).
  rewrite Hindex in H.
  destruct H as (pre & evs' & -> & _ & _ & Hpre & _ & _ & _ & _ & _
                 & (k & Harch & Hk) & Hx).
  rewrite (Hx Hch Hmk) in *. subst k. rewrite firstn_all in Harch.
  split; [done|]. eexists. split; [exact Htr|].
  change (EvSessionOpen ?s :: ?l) with ([EvSessionOpen s] ++ l).
  rewrite !archives_app, Hpre, Harch. cbn. by rewrite app_nil_r.
Qed.


(** X13. When the index page cannot be reached (its fetch raises a
    [RequestException]), the run goes on with nothing to do: each of the
    three readers fetches the page and logs its error, the sentinels are
    logged as the title and the author found, a session is opened and
    closed without a call, no file and no archive is written, and
    [download_manga] returns. *)
Theorem unreachable_index_page (w : World) (fuel : nat) (index_url : str)
    (st : State) :
  http_get w index_url = Fails RequestException ->
  let r := download_manga w fuel index_url st in
  r.1 = Ret tt
  /\ files r.2 = files st /\ dirs r.2 = dirs st
  /\ trace r.2
     = trace st
       ++ [EvGet None index_url; EvLog ERROR (FetchTitleFailed index_url);
           EvGet None index_url; EvLog ERROR (FetchAuthorFailed index_url);
           EvLog INFO (DetectedTitle unknown_manga);
           EvLog INFO (DetectedAuthor unknown_author);
           EvGet None index_url; EvLog ERROR (FetchChaptersFailed index_url);
           EvSessionOpen (sessions st); EvSessionClose (sessions st)].
Proof.
  intros Hget. cbv zeta.
  unfold download_manga, fetch_manga_title, fetch_manga_author,
    fetch_chapter_links_and_titles, with_session. mred.
  rewrite Hget. cbv beta iota zeta. unfold is_RequestException.
  cbv beta iota zeta. unfold emit.
  cbn [fst snd trace files dirs sessions for_each]. unfold ret.
  cbn [fst snd trace files dirs sessions].
  by rewrite <- !app_assoc.
Qed.

(** X14. In a run in which the index page is read, one session is opened,
    and whenever the run ends, by returning or by an exception, closing
    that session is the last thing it does.  Otherwise the run ends before
    any session is opened. *)
Theorem session_is_closed_at_the_end (w : World) (fuel : nat)
    (index_url : str) (st : State) :
  let r := download_manga w fuel index_url st in
  exists evs,
    trace r.2 = trace st ++ evs
    /\ match index_soup w index_url with
       | Done _ =>
           opened evs = [sessions st]
           /\ match r.1 with
              | OutOfFuel => True
              | _ => last (trace r.2) = Some (EvSessionClose (sessions st))
              end
       | Fails e => r.1 = Raise e /\ opened evs = []
       end.
Proof.
  cbv zeta.
  destruct (run_download_manga_with w fuel index_url _
              (fun s => spec_chapter_loop w fuel (title_of w index_url)
                 (output_directory (title_of w index_url)
                                   (author_of w index_url))
                 s (chapters_of w index_url)) st)
    as (evs & Htr & H).
  exists evs. split; [exact Htr|].
  destruct (index_soup w index_url) as [soup|e].
  - destruct H as (pre & evs' & -> & _ & Hop & _ & _ & _ & _ & Hall & _).
    destruct (session_events_calls _ _ Hall) as (Hop' & _).
    rewrite Htr. split.
    + change (EvSessionOpen ?s :: ?l) with ([EvSessionOpen s] ++ l).
      destruct (closing_event_quiet (sessions st)
                  (download_manga w fuel index_url st).1)
        as (_ & _ & _ & _ & Hco).
      cbv zeta in Hco. by rewrite !opened_app, Hop, Hop', Hco.
    + destruct (download_manga w fuel index_url st).1; [| |done];
        change (EvSessionOpen ?s :: ?l) with ([EvSessionOpen s] ++ l);
        by rewrite !app_assoc, last_snoc.
  - by destruct H as [-> ->].
Qed.

Lemma flat_map_map {A B C} (f : B -> list C) (g : A -> B) (l : list A) :
  flat_map f (map g l) = flat_map (fun x => f (g x)) l.
Proof. induction l as [|x l IH]; cbn; [done|]. by rewrite IH. Qed.

Lemma embedded_images_all (fs : gmap str bytes) (dir : str)
    (contents : list bytes) (start : nat) :
  (forall k c, contents !! k = Some c ->
               fs !! image_file dir (start + k) = Some c) ->
  embedded_images fs (map (image_file dir) (seq start (length contents)))
  = zip_with (fun i c => EpubImage (format_03 i ++ lit ".jpg")
                                   (format_03 i ++ lit ".jpg")
                                   (lit "image/jpeg") c)
             (seq start (length contents)) contents.
Proof.
  revert start. induction contents as [|c contents IH]; intros start H;
    [done|].
  cbn [length seq zip_with map].
  unfold embedded_images in *. cbn [omap list_omap].
  pose proof (H 0%nat c eq_refl) as Hc. rewrite Nat.add_0_r in Hc.
  rewrite Hc, (image_file_basename dir start).
  f_equal. apply IH. intros k d Hk.
  specialize (H (S k) d Hk). by rewrite Nat.add_succ_r in H.
Qed.

(** X15. One chapter from end to end: when its chain of pages ends, all
    its images can be fetched, and its directories, its image files and
    its archive can be written, the body of the loop of [download_manga]
    returns and hands to the library, under
    [<output>/<manga>_<title>.epub], a book whose content document
    references 001.jpg, 002.jpg, ... in order and whose embedded images
    are exactly these, each holding the body of the image at its position;
    the archive then is on the disk. *)
Theorem chapter_end_to_end (w : World) (fuel : nat)
    (manga_title OUTPUT_DIR : str) (session : nat) (chapter : str * str)
    (st : State) (pages : list Node) (contents : list bytes) :
  let epub_path :=
    os_path_join OUTPUT_DIR
                 (manga_title ++ lit "_" ++ chapter.1 ++ lit ".epub") in
  page_chain w fuel (Some chapter.2) = Some pages ->
  Forall2 (fun u c => http_get w u = Done c)
          (flat_map image_urls pages) contents ->
  (forall idx,
     fs_open_wb w (image_file (temp_image_dir OUTPUT_DIR chapter.1) idx)
     = FsDone) ->
  fs_makedirs w (temp_image_dir OUTPUT_DIR chapter.1) = FsDone ->
  fs_makedirs w OUTPUT_DIR = FsDone ->
  (forall b, epub_writer w epub_path b = EpubWritten) ->
  let r := download_chapter w fuel manga_title OUTPUT_DIR session chapter tt
                            st in
  let indices := seq 1 (length contents) in
  r.1 = Ret tt
  /\ exists book,
       EvWriteEpub epub_path book ∈ trace r.2
       /\ files r.2 !! epub_path = Some (epub_bytes w book)
       /\ items book
          = EpubHtml chapter.1 (chapter.1 ++ lit ".xhtml")
              (flat_map
                 (fun i => lit "<img src=" ++ dquote ++ format_03 i
                           ++ lit ".jpg" ++ dquote ++ lit " alt=" ++ dquote
                           ++ chapter.1 ++ dquote ++ lit " style=" ++ dquote
                           ++ lit "max-width:100%;" ++ dquote ++ lit "/>"
                           ++ lit "<br>")
                 indices)
            :: zip_with (fun i c => EpubImage (format_03 i ++ lit ".jpg")
                                              (format_03 i ++ lit ".jpg")
                                              (lit "image/jpeg") c)
                        indices contents
            ++ [EpubNcx; EpubNav].
Proof.
  intros epub_path Hp Hc Hwr Hmk Hmk' Hwe. cbv zeta. unfold download_chapter.
  fold (temp_image_dir OUTPUT_DIR chapter.1).
  set (dir := temp_image_dir OUTPUT_DIR chapter.1) in *.
  destruct (download_images_all_fetched w fuel chapter.2 dir session st
              pages contents Hp Hc Hwr Hmk) as [Hret _].
  pose proof (files_after_all_fetched w fuel chapter.2 dir session st
                pages contents Hp Hc Hwr Hmk) as Hfiles.
  cbv zeta in Hret. unfold bind.
  destruct (download_images w fuel chapter.2 dir session st) as [o st1].
  cbn [fst snd] in *. subst o.
  set (names := map (image_file dir) (seq 1 (length contents))).
  destruct (create_volume_epub_exact w manga_title chapter.1 names OUTPUT_DIR
              st1)
    as (r & st' & mk & post & book & Hrun & _ & Htr & _ & Hbook & Hcase).
  rewrite Hrun. cbn [fst snd].
  fold (epub_file manga_title chapter.1 OUTPUT_DIR) in epub_path.
  destruct Hcase as [(_ & Hno & _)|[(_ & Hno & _)|[(_ & Hno & _)
                    |(-> & _ & -> & Hf)]]].
  { done. }
  { subst epub_path. by rewrite Hwe in Hno. }
  { subst epub_path. by rewrite Hwe in Hno. }
  split; [done|]. exists book. split; [|split].
  - rewrite Htr. subst epub_path. set_solver.
  - rewrite Hf. apply lookup_insert_eq.
  - destruct Hbook as (_ & _ & _ & -> & _). f_equal; [f_equal|f_equal].
    + subst names. rewrite flat_map_map. apply flat_map_ext. intros i.
      unfold img_tag. rewrite (image_file_basename dir i).
      by rewrite <- !app_assoc.
    + subst names. apply (embedded_images_all _ dir contents 1).
      intros k c Hk. by apply Hfiles.
Qed.

(** ** The image directory of a chapter *)

Lemma re_sub_plus_other (cls : N -> bool) (repl : str) (c : N) (t : str) :
  cls c = false -> c ∉ repl ->
  (c ∈ re_sub_plus cls repl t <-> c ∈ t)
  /\ (c ∈ re_sub_skip cls repl t -> c ∈ t)
  /\ (forall d r, t = d :: r -> cls d = false ->
        (c ∈ re_sub_skip cls repl t <-> c ∈ t)).
Proof.
  intros Hc Hrepl. induction t as [|d r (IH1 & IH2 & IH3)].
  - repeat split; try done.
  - rewrite re_sub_plus_cons, re_sub_skip_cons.
    destruct (cls d) eqn:Hd.
    + assert (c <> d) as Hne by (intros ->; congruence).
      split; [|split].
      * rewrite elem_of_app, elem_of_cons. split.
        -- intros [H|H]; [done|]. right. by apply IH2.
        -- intros [H|H]; [done|]. right. destruct r as [|d' r']; [done|].
           rewrite re_sub_skip_cons in *. rewrite re_sub_plus_cons in IH1.
           destruct (cls d') eqn:Hd'.
           ++ apply IH1 in H. apply elem_of_app in H as [H|H]; done.
           ++ by apply IH1.
      * intros H. apply elem_of_cons. right. by apply IH2.
      * intros d0 r0 [= <- <-] Hd0. congruence.
    + split; [|split].
      * rewrite !elem_of_cons. by rewrite IH1.
      * rewrite !elem_of_cons. by rewrite IH1.
      * intros d0 r0 _ _. rewrite !elem_of_cons. by rewrite IH1.
Qed.

(** The sanitizer keeps a character that is neither reserved nor
    whitespace, the NUL character among them. *)
Lemma slugify_keeps (c : N) (title : str) :
  is_reserved c = false -> is_space c = false -> c <> 95 ->
  c ∈ slugify_filename title <-> c ∈ title.
Proof.
  intros Hr Hs Hu. unfold slugify_filename.
  destruct (re_sub_plus_other is_space (lit "_") c
              (re_sub_class is_reserved [] title) Hs) as (-> & _).
  { intros H. apply list_elem_of_singleton in H. done. }
  rewrite re_sub_class_delete, !list_elem_of_In, filter_In, Hr.
  simpl. tauto.
Qed.

(** X3. The directory of the images of a chapter is the string
    [<output>/temp_images], a separator, and the sanitized title, which
    holds no separator: the title adds one path component, whatever it
    holds.  The component is not always the name of a child of
    [temp_images]: it is empty for the title [??], and [..] for the
    titles [..] and [.:.]; and it holds a NUL character whenever the
    title does. *)
Theorem temp_image_dir_shape (OUTPUT_DIR title : str) :
  let temp_images := os_path_join OUTPUT_DIR (lit "temp_images") in
  let slug := slugify_filename title in
  (temp_image_dir OUTPUT_DIR title = temp_images ++ sep :: slug
   /\ os_path_basename (temp_image_dir OUTPUT_DIR title) = slug
   /\ (sep ∉ slug)
   /\ ((0 ∈ slug) <-> (0 ∈ title)))
  /\ temp_image_dir (lit "out") (lit "??") = lit "out/temp_images/"
  /\ temp_image_dir (lit "out") (lit "..") = lit "out/temp_images/.."
  /\ temp_image_dir (lit "out") (lit ".:.") = lit "out/temp_images/..".
Proof.
  cbv zeta. split; [|by repeat split].
  unfold temp_image_dir.
  set (a := os_path_join OUTPUT_DIR (lit "temp_images")).
  assert (last a = Some 115) as Hlast.
  { subst a. unfold os_path_join. cbn [lit list_ascii_of_string map].
    cbv beta iota. change (N_of_ascii "t" =? sep) with false. cbv iota.
    destruct (last OUTPUT_DIR) as [e|]; [destruct (e =? sep)|]; try done.
    - by rewrite last_app.
    - by rewrite last_app. }
  pose proof (slugify_clean title) as Hclean.
  assert (Forall (fun c => c <> sep) (slugify_filename title)) as Hplain.
  { eapply Forall_impl; [exact Hclean|]. intros c [Hc _] ->. apply Hc.
    unfold reserved_chars, sep. set_solver. }
  assert (os_path_join a (slugify_filename title)
          = a ++ sep :: slugify_filename title) as Hjoin.
  { unfold os_path_join at 1. rewrite Hlast.
    destruct Hplain as [|c l Hc _]; [done|].
    apply N.eqb_neq in Hc. by rewrite Hc. }
  split; [exact Hjoin|]. split; [rewrite Hjoin; by apply basename_after_sep|].
  split.
  - intros H. eapply Forall_forall in Hplain; [|exact H]. done.
  - by apply slugify_keeps.
Qed.

(** ** The chapter extractor *)






(** *** The words of a class attribute *)












(** ** The program on the small site *)

Ltac by_eval := solve [vm_compute; repeat split; try reflexivity].

Ltac fetched :=
  repeat first [ apply Forall2_nil_2
               | apply Forall2_cons_2; [by_eval|] ].

Lemma os_path_join_elem (a b : str) (c : N) :
  c ∈ os_path_join a b -> c ∈ a \/ c = sep \/ c ∈ b.
Proof.
  unfold os_path_join. destruct b as [|d b'].
  - destruct (last a) as [e|]; [|by intros ?%elem_of_nil].
    destruct (e =? sep); [by left|].
    rewrite elem_of_app, list_elem_of_singleton. tauto.
  - destruct (d =? sep); [by right; right|].
    destruct (last a) as [e|]; [|by right; right].
    destruct (e =? sep); rewrite elem_of_app; [tauto|].
    rewrite (elem_of_cons (d :: b')). tauto.
Qed.

(** The name of an image file has a NUL character only when the
    directory has one. *)
Lemma image_file_nul (dir : str) (idx : nat) :
  bool_decide (0 ∈ dir) = false ->
  Demo.fs_accepts (image_file dir idx) = FsDone.
Proof.
  intros Hdir. unfold Demo.fs_accepts.
  rewrite bool_decide_eq_false_2; [done|].
  intros [H|[H|H]]%os_path_join_elem.
  - by apply bool_decide_eq_false in Hdir.
  - done.
  - apply elem_of_app in H as [H|H].
    + destruct (format_03_digits idx) as [Hd _].
      eapply Forall_forall in Hd; [|exact H]. lia.
    + apply list_elem_of_In in H. simpl in H. intuition discriminate.
Qed.

(** Every fetch of a list of URLs of the site is handled. *)
Ltac all_handled :=
  vm_compute; repeat first [ apply Forall_nil_2 | apply Forall_cons_2 ];
  reflexivity.

Example slugify_example :
  slugify_filename (lit "Ch 1: The/Beginning?") = lit "Ch_1_TheBeginning".
Proof. reflexivity. Qed.

Example slugify_ideographic_space :
  slugify_filename [31532; 49; 35441; 12288; 12288; 38283; 22987]
  = [31532; 49; 35441; 95; 38283; 22987].
Proof. reflexivity. Qed.

Example runs_example :
  runs is_space (lit "a  b c") = [lit "a"; lit "  "; lit "b"; lit " "; lit "c"].
Proof. reflexivity. Qed.

Example format_03_examples :
  format_03 7 = lit "007" /\ format_03 42 = lit "042"
  /\ format_03 1234 = lit "1234".
Proof. by_eval. Qed.

Example os_path_examples :
  os_path_join (lit "out") (lit "001.jpg") = lit "out/001.jpg"
  /\ os_path_join (lit "out/") (lit "001.jpg") = lit "out/001.jpg"
  /\ os_path_join (lit "out") (lit "/abs") = lit "/abs"
  /\ os_path_basename (lit "./M/temp_images/c/001.jpg") = lit "001.jpg".
Proof. by_eval. Qed.

(** The text of a heading leaves out a comment and the text of a
    script. *)
Example get_text_example :
  get_text (Tag (lit "h1") ∅
              [NavigableString Text (lit "One ");
               NavigableString Comment (lit "draft");
               Tag (lit "script") ∅ [NavigableString Script (lit "x()")];
               Tag (lit "b") ∅ [NavigableString Text (lit "Piece")]])
  = lit "One Piece".
Proof. by_eval. Qed.

Example resolve_examples :
  resolve (lit "/comic/6") = lit "https://www.baozimh.com/comic/6"
  /\ resolve (lit "comic/6") = lit "https://www.baozimh.com/comic/6"
  /\ resolve (lit "//img.example/6") = lit "https://img.example/6"
  /\ resolve (lit "https://other.example/6") = lit "https://other.example/6".
Proof. by_eval. Qed.

Example chapters_of_the_site :
  chapters_of Demo.site_up Demo.index_url
  = [(lit "Ch 1: The/Beginning?", lit "https://www.baozimh.com/c/1");
     (lit "two", lit "https://www.baozimh.com/c/2")].
Proof. by_eval. Qed.

Example title_and_author_of_the_site :
  (fetch_manga_title Demo.site_up Demo.index_url Demo.start).1 = Ret (lit "M")
  /\ (fetch_manga_author Demo.site_up Demo.index_url Demo.start).1
     = Ret unknown_author.
Proof. by_eval. Qed.



(** C2, as stated, fails: on a page of three images of which the second
    cannot be fetched, the files written are 001.jpg and 003.jpg. *)
Lemma image_numbering_has_gap :
  let r := download_images Demo.site_b_down 3
             (lit "https://www.baozimh.com/g/1") (lit "out") 0 Demo.start in
  map fst (written (trace r.2)) = [lit "out/001.jpg"; lit "out/003.jpg"]
  /\ map fst (written (trace r.2))
     <> map (image_file (lit "out")) (seq 1 2).
Proof. split; [by_eval|]. vm_compute. discriminate. Qed.

Lemma image_files_contiguous_witness :
  let r := download_images Demo.site_up 3 (lit "https://www.baozimh.com/c/1")
                           (lit "out") 0 Demo.start in
  r.1 = Ret [lit "out/001.jpg"; lit "out/002.jpg"; lit "out/003.jpg"]
  /\ written (trace r.2)
     = [(lit "out/001.jpg", [Byte.x0a]); (lit "out/002.jpg", [Byte.x0b]);
        (lit "out/003.jpg", [Byte.x0c])].
Proof.
  refine (image_files_contiguous_when_all_fetched Demo.site_up 3
            (lit "https://www.baozimh.com/c/1") (lit "out") 0 Demo.start
            [Demo.page_1; Demo.page_2]
            [[Byte.x0a]; [Byte.x0b]; [Byte.x0c]] eq_refl _
            (fun idx => image_file_nul (lit "out") idx eq_refl) eq_refl).
  change (flat_map image_urls _)
    with [Demo.image_a; Demo.image_b; Demo.image_c].
  fetched.
Defined.

(** C3, as stated, fails: on a page of five images of which the third
    has the source [http://a..b/], the fetch of the third raises an
    exception that is not a [RequestException]; it is not caught, and
    leaves [download_images] after two files. *)
Lemma third_of_five_raises :
  let w := Demo.site_bad_host in
  let r := download_images w 1 (lit "https://www.baozimh.com/h/1")
                           (lit "out") 0 Demo.start in
  image_urls Demo.page_five_bad_host
    = [Demo.image_a; Demo.image_c; lit "http://a..b/"; Demo.image_d;
       Demo.image_e]
  /\ http_get w (lit "http://a..b/") = Fails LocationParseError
  /\ r.1 = Raise LocationParseError
  /\ map fst (written (trace r.2)) = [lit "out/001.jpg"; lit "out/002.jpg"]
  /\ failed_images (trace r.2) = [].
Proof. by_eval. Qed.

Lemma third_of_five_fails_witness :
  let r := download_images Demo.site_b_down 1
             (lit "https://www.baozimh.com/f/1") (lit "out") 0 Demo.start in
  r.1 = Ret [lit "out/001.jpg"; lit "out/002.jpg"; lit "out/004.jpg";
             lit "out/005.jpg"]
  /\ written (trace r.2)
     = [(lit "out/001.jpg", [Byte.x0a]); (lit "out/002.jpg", [Byte.x0c]);
        (lit "out/004.jpg", [Byte.x0d]); (lit "out/005.jpg", [Byte.x0e])]
  /\ EvLog ERROR (ImageFailed Demo.image_b) ∈ trace r.2.
Proof.
  refine (third_of_five_fails Demo.site_b_down 0
            (lit "https://www.baozimh.com/f/1") (lit "out") 0 Demo.start
            [Byte.x04] Demo.page_five
            Demo.image_a Demo.image_c Demo.image_b Demo.image_d
            Demo.image_e [Byte.x0a] [Byte.x0c] [Byte.x0d] [Byte.x0e]
            ltac:(discriminate) eq_refl eq_refl eq_refl eq_refl
            eq_refl eq_refl eq_refl eq_refl eq_refl
            (fun idx => image_file_nul (lit "out") idx eq_refl) eq_refl).
Defined.

(** C4, as stated, fails: in a run on the site the index page is fetched
    three times, not once, each time outside the session. *)
Lemma index_page_fetched_three_times :
  let r := download_manga Demo.site_up 3 Demo.index_url Demo.start in
  List.filter (fun c => bool_decide (c.2 = Demo.index_url))
              (net_calls (trace r.2))
  = [(None, Demo.index_url); (None, Demo.index_url); (None, Demo.index_url)].
Proof. by_eval. Qed.

(** C5 fails on the code: the chapter titled [Ch 1: The/Beginning?] is
    archived under its raw title, not under [slugify_filename] of it, while
    the directory of its images does get the sanitized title. *)
Theorem archive_named_from_raw_title :
  let r := download_manga Demo.site_up 3 Demo.index_url Demo.start in
  let out := output_directory (lit "M") unknown_author in
  archives (trace r.2)
  = [os_path_join out (lit "M_Ch 1: The/Beginning?.epub");
     os_path_join out (lit "M_two.epub")]
  /\ os_path_join out (lit "M_Ch 1: The/Beginning?.epub")
     <> os_path_join out (lit "M_" ++ slugify_filename
                                        (lit "Ch 1: The/Beginning?")
                                   ++ lit ".epub")
  /\ map fst (written (trace r.2))
     = map (fun n => os_path_join
                       (os_path_join (os_path_join out (lit "temp_images"))
                                     (lit "Ch_1_TheBeginning")) n)
           [lit "001.jpg"; lit "002.jpg"; lit "003.jpg"].
Proof.
  split; [by_eval|]. split; [vm_compute; discriminate|by_eval].
Qed.

(** C6, as stated, fails: an exception that no handler names leaves
    [download_manga], and the chapters that follow are never asked for.
    So it is with the [OSError] of an image file that cannot be opened for
    writing, with the exception of the fetch of an image from
    [http://a..b/], which is not a [RequestException], with the rejection
    of a page by the parser, and with the [ValueError] of a directory
    whose name, made from the title of the chapter, holds a NUL
    character. *)
Lemma uncaught_exception_aborts_the_run :
  let second (r : outcome unit * State) :=
    List.filter
      (fun c => bool_decide (c.2 = lit "https://www.baozimh.com/c/2"))
      (net_calls (trace r.2)) in
  let r1 := download_manga Demo.site_read_only 3 Demo.index_url Demo.start in
  let r2 := download_manga Demo.site_bad_image 3 Demo.index_url Demo.start in
  let r3 := download_manga Demo.site_bad_markup 3 Demo.index_url Demo.start in
  let r4 := download_manga Demo.site_up 3 Demo.index_url_nul Demo.start in
  (r1.1 = Raise OSError /\ archives (trace r1.2) = [] /\ second r1 = [])
  /\ (r2.1 = Raise LocationParseError /\ archives (trace r2.2) = []
      /\ second r2 = [])
  /\ (r3.1 = Raise ParserRejectedMarkup /\ archives (trace r3.2) = []
      /\ second r3 = [])
  /\ (r4.1 = Raise ValueError /\ archives (trace r4.2) = []
      /\ second r4 = []).
Proof. by_eval. Qed.

Lemma every_chapter_is_processed_witness :
  (download_manga Demo.site_b_down 3 Demo.index_url Demo.start).1 = Ret tt.
Proof.
  refine (proj1 (every_chapter_is_processed Demo.site_b_down 3 Demo.index_url
                   Demo.start (Some Demo.index_page) eq_refl eq_refl _)).
  replace (chapters_of Demo.site_b_down Demo.index_url)
    with [(lit "Ch 1: The/Beginning?", lit "https://www.baozimh.com/c/1");
          (lit "two", lit "https://www.baozimh.com/c/2")] by by_eval.
  apply Forall_cons_2; [|apply Forall_cons_2; [|apply Forall_nil_2]].
  - split; [intros idx; apply image_file_nul; by_eval|].
    split; [by_eval|]. exists [Demo.page_1; Demo.page_2].
    split; [by_eval|all_handled].
  - split; [intros idx; apply image_file_nul; by_eval|].
    split; [by_eval|]. exists []. split; [by_eval|all_handled].
Defined.



Lemma content_document_witness :
  let r := create_volume_epub Demo.site_up (lit "M") (lit "one")
             [lit "d/001.jpg"; lit "d/002.jpg"] (lit "d") Demo.one_file in
  EvWriteEpub (lit "d/M_one.epub") Demo.book_of_one_file ∈ trace r.2
  /\ items Demo.book_of_one_file
     = [EpubHtml (lit "one") (lit "one.xhtml")
          (img_tag (lit "d/001.jpg") (lit "one") ++ lit "<br>"
           ++ img_tag (lit "d/002.jpg") (lit "one") ++ lit "<br>");
        EpubImage (lit "001.jpg") (lit "001.jpg") (lit "image/jpeg")
                  [Byte.x0a];
        EpubNcx; EpubNav].
Proof.
  assert (EvWriteEpub (lit "d/M_one.epub") Demo.book_of_one_file
          ∈ trace (create_volume_epub Demo.site_up (lit "M") (lit "one")
                     [lit "d/001.jpg"; lit "d/002.jpg"] (lit "d")
                     Demo.one_file).2) as Hin.
  { vm_compute.
    repeat first [ apply list_elem_of_here | apply list_elem_of_further ]. }
  split; [exact Hin|].
  refine (content_document_references_every_path Demo.site_up (lit "M")
            (lit "one") [lit "d/001.jpg"; lit "d/002.jpg"] (lit "d")
            Demo.one_file (lit "d/M_one.epub") Demo.book_of_one_file Hin _).
  apply not_elem_of_nil.
Defined.

(** The library swallows the I/O error of an archive whose directory
    does not exist: the archive of the chapter [Ch 1: The/Beginning?] is
    logged as saved, and no file of that name exists afterwards. *)
Example archive_logged_but_not_written :
  let r := download_manga Demo.site_up 3 Demo.index_url Demo.start in
  let out := output_directory (lit "M") unknown_author in
  let f := os_path_join out (lit "M_Ch 1: The/Beginning?.epub") in
  EvLog INFO (EpubSaved f) ∈ trace r.2
  /\ files r.2 !! f = None
  /\ files r.2 !! os_path_join out (lit "M_two.epub")
     = Some [Byte.x50; Byte.x4b].
Proof.
  split; [|by_eval].
  vm_compute.
  repeat first [ apply list_elem_of_here | apply list_elem_of_further ].
Qed.

Lemma unreachable_index_page_witness :
  (download_manga Demo.site_up 0 (lit "https://www.baozimh.com/none")
                  Demo.start).1 = Ret tt.
Proof.
  exact (proj1 (unreachable_index_page Demo.site_up 0
                  (lit "https://www.baozimh.com/none") Demo.start eq_refl)).
Defined.

Lemma chapter_end_to_end_witness :
  (download_chapter Demo.site_up 3 (lit "M") (lit "./M - A") 0
     (lit "one", lit "https://www.baozimh.com/c/1") tt Demo.start).1 = Ret tt.
Proof.
  refine (proj1 (chapter_end_to_end Demo.site_up 3 (lit "M") (lit "./M - A") 0
                   (lit "one", lit "https://www.baozimh.com/c/1") Demo.start
                   [Demo.page_1; Demo.page_2]
                   [[Byte.x0a]; [Byte.x0b]; [Byte.x0c]] eq_refl _
                   (fun idx =>
                      image_file_nul
                        (temp_image_dir (lit "./M - A") (lit "one")) idx
                        eq_refl)
                   eq_refl eq_refl (fun b => eq_refl))).
  change (flat_map image_urls _)
    with [Demo.image_a; Demo.image_b; Demo.image_c].
  fetched.
Defined.

Lemma download_images_numbering_witness :
  let r := download_images Demo.site_b_down 3
             (lit "https://www.baozimh.com/c/1") (lit "out") 0 Demo.start in
  r.1 = Ret [lit "out/001.jpg"; lit "out/002.jpg"]
  /\ written (trace r.2)
     = [(lit "out/001.jpg", [Byte.x0a]); (lit "out/002.jpg", [Byte.x0c])].
Proof.
  refine (let H := download_images_numbering Demo.site_b_down 3
                     (lit "https://www.baozimh.com/c/1") (lit "out") 0
                     Demo.start [Demo.page_1; Demo.page_2] eq_refl _
                     (fun idx => image_file_nul (lit "out") idx eq_refl)
                     eq_refl in
          conj (proj1 H) (proj1 (proj2 H))).
  all_handled.
Defined.

Lemma self_linked_page_witness :
  (download_images looping_site 7 (lit "https://www.baozimh.com/l/1")
                   (lit "out") 0 Demo.start).1 = OutOfFuel.
Proof.
  refine (self_linked_page_never_ends looping_site
            (lit "https://www.baozimh.com/l/1") (lit "out") 0 []
            (Demo.document [Demo.img Demo.image_a;
                            Demo.next_link (lit "/l/1")])
            ltac:(discriminate) eq_refl eq_refl eq_refl _
            (fun idx => image_file_nul (lit "out") idx eq_refl) eq_refl
            7%nat Demo.start).
  all_handled.
Defined.

Lemma next_page_overwrites_witness :
  let r := download_images site_a_down 2 (lit "https://www.baozimh.com/c/1")
                           (lit "out") 0 Demo.start in
  r.1 = Ret [lit "out/002.jpg"; lit "out/002.jpg"]
  /\ written (trace r.2)
     = [(lit "out/002.jpg", [Byte.x0b]); (lit "out/002.jpg", [Byte.x0c])]
  /\ files r.2 !! lit "out/002.jpg" = Some [Byte.x0c].
Proof.
  exact (next_page_overwrites_after_failure site_a_down 0
           (lit "https://www.baozimh.com/c/1") (lit "out") 0 Demo.start
           [Byte.x01] [Byte.x02] Demo.page_1 Demo.page_2
           (lit "https://www.baozimh.com/c/1b")
           Demo.image_a Demo.image_b Demo.image_c [Byte.x0b] [Byte.x0c]
           ltac:(discriminate) eq_refl eq_refl eq_refl eq_refl eq_refl
           eq_refl eq_refl eq_refl eq_refl eq_refl eq_refl
           (fun idx => image_file_nul (lit "out") idx eq_refl) eq_refl).
Defined.

Lemma all_fetched_files_witness :
  let r := download_images Demo.site_up 3 (lit "https://www.baozimh.com/c/1")
                           (lit "out") 0 Demo.start in
  files r.2 !! lit "out/001.jpg" = Some [Byte.x0a]
  /\ files r.2 !! lit "out/002.jpg" = Some [Byte.x0b]
  /\ files r.2 !! lit "out/003.jpg" = Some [Byte.x0c].
Proof.
  assert (page_chain Demo.site_up 3 (Some (lit "https://www.baozimh.com/c/1"))
          = Some [Demo.page_1; Demo.page_2]) as Hp by by_eval.
  assert (Forall2 (fun u c => http_get Demo.site_up u = Done c)
            (flat_map image_urls [Demo.page_1; Demo.page_2])
            [[Byte.x0a]; [Byte.x0b]; [Byte.x0c]]) as Hc.
  { change (flat_map image_urls _)
      with [Demo.image_a; Demo.image_b; Demo.image_c]. fetched. }
  pose proof (proj2 (all_fetched_files_hold_the_images Demo.site_up 3
                       (lit "https://www.baozimh.com/c/1") (lit "out") 0
                       Demo.start _ _ Hp Hc
                       (fun idx => image_file_nul (lit "out") idx eq_refl)
                       eq_refl)) as H.
  cbv zeta in H. cbn [length seq zip zip_with] in H.
  apply Forall_cons in H as [H1 H]. apply Forall_cons in H as [H2 H].
  apply Forall_cons in H as [H3 _]. exact (conj H1 (conj H2 H3)).
Defined.
